(** * Lift controller (lift_example_RIGLER/lift.ts): shallow embedding

    The class [Lift] is embedded as a record of its fields.  Floors are
    integers ([Z]): the [number]s that are no integers are left out.  The
    request stores keep the order the JavaScript containers keep ([Set]
    iterates in insertion order, an array in push order).

    The timed operations are [async] methods.  Each is split at its [await]
    points into the part that runs at the call and one [Frame] per suspended
    continuation; the timers of [setTimeout], the queue of promise jobs and
    a clock live in the [World] next to the car, and an event loop runs
    them.  A rejection of a promise nobody holds is recorded in
    [unhandled]; what the host makes of it is not part of the class.
    Logging ([console.log]) has no effect on the car and is left out. *)

From Stdlib Require Import String ZArith List Bool Lia Sorted Permutation.
Import ListNotations.
Local Open Scope Z_scope.

(* ------------------------------------------------------------------ *)
(** ** Data model *)

Inductive Direction := Up | Down | Idle.

(** Numeric value of the enum members ([Up = 1], [Down = -1], [Idle = 0]). *)
Definition dir_value (d : Direction) : Z :=
  match d with Up => 1 | Down => -1 | Idle => 0 end.

Definition Direction_eqb (a b : Direction) : bool :=
  match a, b with
  | Up, Up | Down, Down | Idle, Idle => true
  | _, _ => false
  end.

Inductive DoorState := Open | Closed.

(** [Direction.Up | Direction.Down]: the direction a call may carry. *)
Inductive CallDirection := CallUp | CallDown.

Definition call_dir (d : CallDirection) : Direction :=
  match d with CallUp => Up | CallDown => Down end.

Record Call := mkCall { floor : Z; call_direction : CallDirection }.

(** The messages of the [Error] objects the class throws, by kind. *)
Inductive Error :=
| ConstructionError (startFloorCheck : bool)
| OutOfRangeError
| BusyError
| DoorsOpenError
| NoDestinationError.

Definition message (e : Error) : string :=
  match e with
  | ConstructionError false => "minFloor must be <= maxFloor"
  | ConstructionError true => "startFloor out of range"
  | OutOfRangeError => "floor out of range"
  | BusyError => "Lift is busy"
  | DoorsOpenError => "Cannot move while doors are open"
  | NoDestinationError => "No destination to move to"
  end%string.

Record Lift := mkLift {
  minFloor : Z;
  maxFloor : Z;
  currentFloor : Z;
  direction : Direction;
  doors : DoorState;
  panelRequests : list Z;   (* Set<number>, in insertion order *)
  calls : list Call;
  busy : bool
}.

Definition set_currentFloor (f : Z) (l : Lift) : Lift :=
  mkLift (minFloor l) (maxFloor l) f (direction l) (doors l)
         (panelRequests l) (calls l) (busy l).
Definition set_direction (d : Direction) (l : Lift) : Lift :=
  mkLift (minFloor l) (maxFloor l) (currentFloor l) d (doors l)
         (panelRequests l) (calls l) (busy l).
Definition set_doors (s : DoorState) (l : Lift) : Lift :=
  mkLift (minFloor l) (maxFloor l) (currentFloor l) (direction l) s
         (panelRequests l) (calls l) (busy l).
Definition set_panelRequests (p : list Z) (l : Lift) : Lift :=
  mkLift (minFloor l) (maxFloor l) (currentFloor l) (direction l) (doors l)
         p (calls l) (busy l).
Definition set_calls (c : list Call) (l : Lift) : Lift :=
  mkLift (minFloor l) (maxFloor l) (currentFloor l) (direction l) (doors l)
         (panelRequests l) c (busy l).
Definition set_busy (b : bool) (l : Lift) : Lift :=
  mkLift (minFloor l) (maxFloor l) (currentFloor l) (direction l) (doors l)
         (panelRequests l) (calls l) b.

(** [constructor(minFloor = 1, maxFloor = 10, startFloor = 1)]. *)
Definition new_Lift (minF maxF startF : Z) : Lift + Error :=
  if minF >? maxF then inr (ConstructionError false)
  else if (startF <? minF) || (startF >? maxF) then inr (ConstructionError true)
  else inl (mkLift minF maxF startF Idle Closed [] [] false).

Definition new_Lift_default : Lift + Error := new_Lift 1 10 1.

(* ------------------------------------------------------------------ *)
(** ** The JavaScript containers *)

Module JsSet.
(** [Set.prototype.has], [add], [delete] on a set of numbers kept as the
    list of its elements in insertion order. *)
Definition has (x : Z) (s : list Z) : bool := existsb (Z.eqb x) s.
Definition add (x : Z) (s : list Z) : list Z :=
  if has x s then s else s ++ [x].
Definition delete (x : Z) (s : list Z) : list Z :=
  filter (fun y => negb (y =? x)) s.
End JsSet.

(** [Array.prototype.sort((a,b) => a-b)]: ascending, stable. *)
Fixpoint insert_asc (x : Z) (l : list Z) : list Z :=
  match l with
  | [] => [x]
  | y :: r => if x <? y then x :: l else y :: insert_asc x r
  end.

Definition sort_asc (l : list Z) : list Z :=
  fold_left (fun acc x => insert_asc x acc) l [].

(** Getters. *)
Definition pendingPanelRequests (l : Lift) : list Z := sort_asc (panelRequests l).
Definition pendingCalls (l : Lift) : list Call := calls l.

(* ------------------------------------------------------------------ *)
(** ** Synchronous helpers *)

Inductive Completion := Normal | Abrupt (e : Error).

Definition assertFloorInRange (f : Z) (l : Lift) : Completion :=
  if (f <? minFloor l) || (f >? maxFloor l) then Abrupt OutOfRangeError
  else Normal.

Definition hasPendingRequests (l : Lift) : bool :=
  (0 <? Z.of_nat (length (panelRequests l)))
  || (0 <? Z.of_nat (length (calls l))).

Definition shouldStopAtFloor (l : Lift) (f : Z) : bool :=
  if JsSet.has f (panelRequests l) then true
  else
    let callsHere := filter (fun c => floor c =? f) (calls l) in
    if Z.of_nat (length callsHere) =? 0 then false
    else if Direction_eqb (direction l) Idle then true
    else existsb (fun c => Direction_eqb (call_dir (call_direction c)) (direction l))
                 callsHere.

Definition fulfillAtCurrentFloor (l : Lift) : Lift :=
  let l1 := set_panelRequests (JsSet.delete (currentFloor l) (panelRequests l)) l in
  set_calls (filter (fun c => negb (floor c =? currentFloor l1)) (calls l1)) l1.

(** The candidate floors of [updateDirectionIfIdle], in the order the
    spread builds them. *)
Definition targets (l : Lift) : list Z :=
  panelRequests l ++ map floor (calls l).

(** One turn of the [for (const t of targets)] loop on [(nearest, bestDist)]. *)
Definition nearer (cur : Z) (acc : Z * Z) (t : Z) : Z * Z :=
  let d := Z.abs (t - cur) in
  if d <? snd acc then (t, d) else acc.

Definition nearest_target (cur : Z) (t0 : Z) (ts : list Z) : Z :=
  fst (fold_left (nearer cur) ts (t0, Z.abs (t0 - cur))).

Definition newDir (nearest cur : Z) : Direction :=
  if nearest >? cur then Up else if nearest <? cur then Down else Idle.

(* ------------------------------------------------------------------ *)
(** ** Asynchronous operations

    An [async] method runs at its call up to its first [await]; what is left
    of it is a [Frame].  A [Task] is a chain of frames, innermost first: the
    head is parked on a timer or on a promise, and each following frame
    awaits the promise of the one before it.  The empty chain stands for the
    code outside the class that called the method and holds its promise. *)

Inductive Frame :=
| FOpenDoors             (* openDoors at [await this.sleep(1000)] *)
| FCloseDoors            (* closeDoors at [await this.sleep(1000)] *)
| FMoveSleep (next : Z)  (* moveOneFloor at [await this.sleep(3000)] *)
| FMoveOpen              (* moveOneFloor at [await this.openDoors()] *)
| FStep (i maxSteps : Z) (* stepUntilStop at [await this.moveOneFloor()] *)
| FVoid.                 (* [void this.openDoors()]: the promise is dropped *)

Definition Task := list Frame.

Record World := mkWorld {
  lift : Lift;
  now : Z;                            (* simulated clock, in ms *)
  timers : list (Z * Task);           (* setTimeout: due time, sleeper *)
  jobs : list (Completion * Task);    (* promise jobs, oldest first *)
  delivered : list Completion;        (* promises settled for the caller *)
  unhandled : list Error              (* rejections of dropped promises *)
}.

Definition on_lift (f : Lift -> Lift) (w : World) : World :=
  mkWorld (f (lift w)) (now w) (timers w) (jobs w) (delivered w) (unhandled w).

Definition boot (l : Lift) : World := mkWorld l 0 [] [] [] [].

(** [this.sleep(ms)] awaited by the chain [k]. *)
Definition sleep (ms : Z) (k : Task) (w : World) : World :=
  mkWorld (lift w) (now w) (timers w ++ [(now w + ms, k)]) (jobs w)
          (delivered w) (unhandled w).

(** State of the promise an async call returns. *)
Inductive Async := Done (c : Completion) | Pending.

(** The promise settles with [c]; [k] is what waits for it. *)
Definition settle_promise (c : Completion) (k : Task) (w : World) : World :=
  match k with
  | [] => mkWorld (lift w) (now w) (timers w) (jobs w)
                  (delivered w ++ [c]) (unhandled w)
  | FVoid :: _ =>
      match c with
      | Normal => w
      | Abrupt e => mkWorld (lift w) (now w) (timers w) (jobs w)
                            (delivered w) (unhandled w ++ [e])
      end
  | _ => mkWorld (lift w) (now w) (timers w) (jobs w ++ [(c, k)])
                 (delivered w) (unhandled w)
  end.

(** [k] waits for the promise returned by a call: a promise that is still
    pending already carries [k] in its chain. *)
Definition then_ (k : Task) (r : Async * World) : World :=
  match r with
  | (Done c, w) => settle_promise c k w
  | (Pending, w) => w
  end.

Definition openDoors (k : Task) (w : World) : Async * World :=
  match doors (lift w) with
  | Open => (Done Normal, w)
  | Closed =>
      if busy (lift w) then (Done (Abrupt BusyError), w)
      else (Pending, sleep 1000 (FOpenDoors :: k) (on_lift (set_busy true) w))
  end.

(** openDoors after its sleep. *)
Definition openDoors_resumed (w : World) : World :=
  on_lift (fun l =>
    let l1 := fulfillAtCurrentFloor (set_doors Open l) in
    let l2 := if negb (hasPendingRequests l1) then set_direction Idle l1 else l1 in
    set_busy false l2) w.

Definition updateDirectionIfIdle (w : World) : World :=
  let l := lift w in
  if negb (Direction_eqb (direction l) Idle) then w
  else if negb (hasPendingRequests l) then on_lift (set_direction Idle) w
  else
    match targets l with
    | [] => w
    | t0 :: _ =>
        let nearest := nearest_target (currentFloor l) t0 (targets l) in
        let d := newDir nearest (currentFloor l) in
        let w1 := on_lift (set_direction d) w in
        if Direction_eqb d Idle then then_ [FVoid] (openDoors [FVoid] w1)
        else w1
    end.

Definition pressButton (f : Z) (w : World) : Completion * World :=
  match assertFloorInRange f (lift w) with
  | Abrupt e => (Abrupt e, w)
  | Normal =>
      let w1 := on_lift (fun l => set_panelRequests (JsSet.add f (panelRequests l)) l) w in
      (Normal, updateDirectionIfIdle w1)
  end.

Definition callFrom (f : Z) (d : CallDirection) (w : World) : Completion * World :=
  match assertFloorInRange f (lift w) with
  | Abrupt e => (Abrupt e, w)
  | Normal =>
      let w1 := on_lift (fun l => set_calls (calls l ++ [mkCall f d]) l) w in
      (Normal, updateDirectionIfIdle w1)
  end.

Definition closeDoors (k : Task) (w : World) : Async * World :=
  match doors (lift w) with
  | Closed => (Done Normal, w)
  | Open =>
      if busy (lift w) then (Done (Abrupt BusyError), w)
      else (Pending, sleep 1000 (FCloseDoors :: k) (on_lift (set_busy true) w))
  end.

(** closeDoors after its sleep. *)
Definition closeDoors_resumed (w : World) : World :=
  on_lift (set_busy false)
          (updateDirectionIfIdle (on_lift (set_doors Closed) w)).

(** moveOneFloor from [const next = ...] on. *)
Definition moveOneFloor_next (k : Task) (w : World) : Async * World :=
  let l := lift w in
  let next := currentFloor l + dir_value (direction l) in
  if (next <? minFloor l) || (next >? maxFloor l) then
    (Done Normal,
     on_lift (set_direction (if Direction_eqb (direction l) Up then Down else Up)) w)
  else
    (Pending, sleep 3000 (FMoveSleep next :: k) (on_lift (set_busy true) w)).

Definition moveOneFloor (k : Task) (w : World) : Async * World :=
  match doors (lift w) with
  | Open => (Done (Abrupt DoorsOpenError), w)
  | Closed =>
      if busy (lift w) then (Done (Abrupt BusyError), w)
      else if Direction_eqb (direction (lift w)) Idle then
        let w1 := updateDirectionIfIdle w in
        if Direction_eqb (direction (lift w1)) Idle
        then (Done (Abrupt NoDestinationError), w1)
        else moveOneFloor_next k w1
      else moveOneFloor_next k w
  end.

(** moveOneFloor after its sleep, up to [await this.openDoors()]. *)
Definition moveOneFloor_resumed (next : Z) (k : Task) (w : World) : Async * World :=
  let w1 := on_lift (fun l => set_busy false (set_currentFloor next l)) w in
  if shouldStopAtFloor (lift w1) (currentFloor (lift w1)) then
    (Pending, then_ (FMoveOpen :: k) (openDoors (FMoveOpen :: k) w1))
  else (Done Normal, w1).

(** One turn of the loop of stepUntilStop, from its test [i < maxSteps]. *)
Definition stepLoop (i maxSteps : Z) (k : Task) (w : World) : Async * World :=
  if i <? maxSteps then
    match doors (lift w), direction (lift w) with
    | Open, _ | _, Idle => (Done Normal, w)
    | _, _ =>
        (Pending, then_ (FStep i maxSteps :: k)
                        (moveOneFloor (FStep i maxSteps :: k) w))
    end
  else (Done Normal, w).

Definition stepUntilStop (maxSteps : Z) (k : Task) (w : World) : Async * World :=
  stepLoop 0 maxSteps k w.

Definition stepUntilStop_default : Z := 1000.

(** The frame [f] goes on with the completion [c] of what it awaited; [k] is
    the rest of its chain. *)
Definition resume (f : Frame) (c : Completion) (k : Task) (w : World)
  : Async * World :=
  match f with
  | FOpenDoors => (Done Normal, openDoors_resumed w)
  | FCloseDoors => (Done Normal, closeDoors_resumed w)
  | FMoveSleep next => moveOneFloor_resumed next k w
  | FMoveOpen => (Done c, w)
  | FStep i maxSteps =>
      match c with
      | Abrupt e => (Done (Abrupt e), w)
      | Normal => stepLoop (i + 1) maxSteps k w
      end
  | FVoid => (Pending, w)
  end.

(* ------------------------------------------------------------------ *)
(** ** The event loop *)

Definition with_jobs (js : list (Completion * Task)) (w : World) : World :=
  mkWorld (lift w) (now w) (timers w) js (delivered w) (unhandled w).

(** Run the oldest promise job. *)
Definition run_job (w : World) : World :=
  match jobs w with
  | [] => w
  | (c, k) :: js =>
      let w1 := with_jobs js w in
      match k with
      | [] => w1
      | f :: k' => then_ k' (resume f c k' w1)
      end
  end.

(** The timer that fires next: the earliest, the oldest among equals;
    returned with the timers that stay. *)
Fixpoint pop_earliest (ts : list (Z * Task)) : option ((Z * Task) * list (Z * Task)) :=
  match ts with
  | [] => None
  | t :: r =>
      match pop_earliest r with
      | None => Some (t, [])
      | Some (t', r') =>
          if fst t <=? fst t' then Some (t, r) else Some (t', t :: r')
      end
  end.

(** Time passes until the next timer is due; its sleeper is woken. *)
Definition fire_timer (w : World) : World :=
  match pop_earliest (timers w) with
  | None => w
  | Some ((due, k), rest) =>
      mkWorld (lift w) (Z.max (now w) due) rest (jobs w ++ [(Normal, k)])
              (delivered w) (unhandled w)
  end.

(** Time passes without any timer becoming due. *)
Definition idle_for (dt : Z) (w : World) : World :=
  if (0 <=? dt) && forallb (fun t => now w + dt <=? fst t) (timers w)
  then mkWorld (lift w) (now w + dt) (timers w) (jobs w) (delivered w) (unhandled w)
  else w.

(** What can happen to a car: a call of a public method from outside, a
    promise job, a timer, or time passing. *)
Inductive Event :=
| EPressButton (f : Z)
| ECallFrom (f : Z) (d : CallDirection)
| EOpenDoors
| ECloseDoors
| EMoveOneFloor
| EStepUntilStop (maxSteps : Z)
| EJob
| ETimer
| EIdle (dt : Z).

Definition step (w : World) (e : Event) : World :=
  match e with
  | EPressButton f => snd (pressButton f w)
  | ECallFrom f d => snd (callFrom f d w)
  | EOpenDoors => then_ [] (openDoors [] w)
  | ECloseDoors => then_ [] (closeDoors [] w)
  | EMoveOneFloor => then_ [] (moveOneFloor [] w)
  | EStepUntilStop m => then_ [] (stepUntilStop m [] w)
  | EJob => run_job w
  | ETimer => fire_timer w
  | EIdle dt => idle_for dt w
  end.

Definition run (es : list Event) (w : World) : World := fold_left step es w.

(** The states a car built by the constructor can be in. *)
Definition reachable (w : World) : Prop :=
  exists minF maxF startF l es,
    new_Lift minF maxF startF = inl l /\ w = run es (boot l).

(** The loop left alone: jobs first, then the next timer, until nothing is
    left to do or [fuel] turns are spent. *)
Fixpoint settle (fuel : nat) (w : World) : World :=
  match fuel with
  | O => w
  | S n =>
      match jobs w, timers w with
      | _ :: _, _ => settle n (run_job w)
      | [], _ :: _ => settle n (fire_timer w)
      | [], [] => w
      end
  end.

Definition quiescent (w : World) : bool :=
  match jobs w, timers w with [], [] => true | _, _ => false end.

(* ------------------------------------------------------------------ *)
(** ** Specification-side definitions *)

(** [t], at position [i] of [ts], is the first of the floors of [ts]
    nearest to [cur]. *)
Definition first_nearest (cur : Z) (ts : list Z) (i : nat) (t : Z) : Prop :=
  nth_error ts i = Some t /\
  (forall j u, nth_error ts j = Some u -> Z.abs (t - cur) <= Z.abs (u - cur)) /\
  (forall j u, (j < i)%nat -> nth_error ts j = Some u ->
               Z.abs (t - cur) < Z.abs (u - cur)).

(** The candidate order as the specification words it: panel requests in
    ascending order, then calls in insertion order. *)
Definition spec_targets (l : Lift) : list Z :=
  pendingPanelRequests l ++ map floor (pendingCalls l).

(** The direction the specification's order selects. *)
Definition spec_direction (l : Lift) : option Direction :=
  match spec_targets l with
  | [] => None
  | t0 :: _ =>
      Some (newDir (nearest_target (currentFloor l) t0 (spec_targets l))
                   (currentFloor l))
  end.

(** The stop rule as the specification words it. *)
Definition stop_rule (l : Lift) (f : Z) : Prop :=
  In f (panelRequests l) \/
  ((exists c, In c (calls l) /\ floor c = f) /\
   (direction l = Idle \/
    exists c, In c (calls l) /\ floor c = f /\
              call_dir (call_direction c) = direction l)).

(** The range invariant, with what keeps it: no sleeping move is headed out
    of range. *)
Definition task_ok (lo hi : Z) (k : Task) : Prop :=
  forall next, In (FMoveSleep next) k -> lo <= next <= hi.

Record Inv (lo hi : Z) (w : World) : Prop := mkInv {
  inv_min : minFloor (lift w) = lo;
  inv_max : maxFloor (lift w) = hi;
  inv_cur : lo <= currentFloor (lift w) <= hi;
  inv_timers : Forall (fun t => task_ok lo hi (snd t)) (timers w);
  inv_jobs : Forall (fun j => task_ok lo hi (snd j)) (jobs w)
}.

(** The lock discipline of [busy].  A frame parked on a sleep is a sleeper;
    the operation in flight is the one task whose head is a sleeper, asleep
    in [timers] or just woken in [jobs]. *)
Definition is_sleeper (f : Frame) : bool :=
  match f with
  | FOpenDoors | FCloseDoors | FMoveSleep _ => true
  | _ => false
  end.

Definition head_sleeper (k : Task) : bool :=
  match k with f :: _ => is_sleeper f | [] => false end.

Definition quiet (k : Task) : Prop := Forall (fun f => is_sleeper f = false) k.

Definition flight (w : World) : list Task :=
  map snd (timers w) ++ filter head_sleeper (map snd (jobs w)).

(** The door state an operation found when it went to sleep. *)
Definition door_before (f : Frame) (d : DoorState) : Prop :=
  match f with
  | FOpenDoors | FMoveSleep _ => d = Closed
  | FCloseDoors => d = Open
  | _ => False
  end.

Record Shape (w : World) : Prop := mkShape {
  timers_shape :
    Forall (fun t => head_sleeper (snd t) = true /\ quiet (tl (snd t))) (timers w);
  jobs_shape : Forall (fun j => quiet (tl (snd j))) (jobs w)
}.

(** Between two events: the lock is free and nothing is in flight, or it is
    held by the one operation in flight, and the doors are as it found
    them. *)
Inductive Mutex (w : World) : Prop :=
| Free : Shape w -> busy (lift w) = false -> flight w = [] -> Mutex w
| Held (f : Frame) (k : Task) :
    Shape w -> busy (lift w) = true -> flight w = [f :: k] ->
    door_before f (doors (lift w)) -> Mutex w.

(** Inside a woken operation: the lock is held and nothing else sleeps. *)
Definition Locked (w : World) : Prop :=
  Shape w /\ busy (lift w) = true /\ flight w = [].

(** A car on floors 1 to 5, starting at 3, and histories used below. *)
Definition car_1_5_3 : Lift := mkLift 1 5 3 Idle Closed [] [] false.

(** pressButton(3) at floor 3: a door-open is in flight. *)
Definition world_opening : World := run [EPressButton 3] (boot car_1_5_3).

(** Doors opened at 3; 3, 4 and 2 pressed; doors closed and opened again:
    4 and 2 are pending, in that order, and the car is idle. *)
Definition world_4_then_2 : World :=
  run [EPressButton 3; ETimer; EJob;
       EPressButton 3; EPressButton 4; EPressButton 2;
       ECloseDoors; ETimer; EJob;
       EOpenDoors; ETimer; EJob] (boot car_1_5_3).

(** Doors opened at 3, 3 pressed again, doors closed: idle, doors closed,
    floor 3 pending at floor 3. *)
Definition world_parked_on_request : World :=
  run [EPressButton 3; ETimer; EJob;
       EPressButton 3; ECloseDoors; ETimer; EJob] (boot car_1_5_3).

(** The same car after a call of moveOneFloor. *)
Definition world_after_failed_move : World :=
  snd (moveOneFloor [] world_parked_on_request).

(** Doors opened at 3; 3 and 4 pressed and a call made at 3; doors closed:
    the car is at rest at floor 3 with all of them pending. *)
Definition world_parked_3_4 : World :=
  run [EPressButton 3; ETimer; EJob;
       EPressButton 3; EPressButton 4; ECallFrom 3 CallUp;
       ECloseDoors; ETimer; EJob] (boot car_1_5_3).

(** A car started at floor 5, called to floor 4 for both directions and to
    floor 3 for Up; its first move has just been woken. *)
Definition world_arriving_at_4 : World :=
  run [ECallFrom 4 CallUp; ECallFrom 4 CallDown; ECallFrom 3 CallUp;
       EMoveOneFloor; ETimer]
      (boot (mkLift 1 5 5 Idle Closed [] [] false)).

(** A car started at floor 4; 5 and 2 pressed; moved up to 5, where the
    doors opened and closed again: at the top floor, going up, with the
    request for 2 below. *)
Definition world_at_top : World :=
  run [EPressButton 5; EPressButton 2;
       EMoveOneFloor; ETimer; EJob; ETimer; EJob; EJob;
       ECloseDoors; ETimer; EJob]
      (boot (mkLift 1 5 4 Idle Closed [] [] false)).

(** Doors opened at 3, 4 pressed, closeDoors called: the doors are still
    open and the close is in flight. *)
Definition world_closing : World :=
  run [EPressButton 3; ETimer; EJob; EPressButton 4; ECloseDoors]
      (boot car_1_5_3).

(* ------------------------------------------------------------------ *)
(** ** Further definitions *)

(** [l'] has the bounds and the request stores of [l]. *)
Definition keeps (l l' : Lift) : Prop :=
  minFloor l' = minFloor l /\ maxFloor l' = maxFloor l /\
  panelRequests l' = panelRequests l /\ calls l' = calls l.

(** What the stores hold: floors of the range, a panel floor once. *)
Definition stores_ok (l : Lift) : Prop :=
  NoDup (panelRequests l) /\
  Forall (fun f => minFloor l <= f <= maxFloor l) (panelRequests l) /\
  Forall (fun c => minFloor l <= floor c <= maxFloor l) (calls l).

(** A car with nothing pending is idle. *)
Definition idle_if_empty (l : Lift) : Prop :=
  hasPendingRequests l = false -> direction l = Idle.

(** Nothing is in flight or queued, and the doors are closed. *)
Definition at_rest (w : World) : Prop :=
  timers w = [] /\ jobs w = [] /\
  busy (lift w) = false /\ doors (lift w) = Closed.

(** The chains parked on a timer or queued as a job. *)
Definition tasks (w : World) : list Task :=
  map snd (timers w) ++ map snd (jobs w).

(** A move asleep or just woken was started by a busy car travelling Up or
    Down, for the floor next to the current one in that direction. *)
Definition moves_ok (w : World) : Prop :=
  forall next k, In (FMoveSleep next :: k) (tasks w) ->
    busy (lift w) = true /\ direction (lift w) <> Idle /\
    next = currentFloor (lift w) + dir_value (direction (lift w)).

Definition no_moves (w : World) : Prop :=
  forall next k, ~ In (FMoveSleep next :: k) (tasks w).

Definition not_move (k : Task) : Prop :=
  forall next k', k <> FMoveSleep next :: k'.

(** A car bound for floor [t], its only request: asleep in the move from
    [cur] that turn [i] of stepUntilStop(m) started at time [nw]. *)
Definition riding (lo hi : Z) (d : Direction) (t cur i m nw : Z)
           (dl : list Completion) (un : list Error) : World :=
  mkWorld (mkLift lo hi cur d Closed [t] [] true) nw
          [(nw + 3000, [FMoveSleep (cur + dir_value d); FStep i m])] []
          dl un.

(** The same car once the ride is over: arrived at [t] with the doors open,
    or stopped short at [cur] with the request still pending. *)
Definition ride_arrived (lo hi t nw : Z)
           (dl : list Completion) (un : list Error) : World :=
  mkWorld (mkLift lo hi t Idle Open [] [] false) nw [] [] (dl ++ [Normal]) un.

Definition ride_cut_short (lo hi : Z) (d : Direction) (t cur nw : Z)
           (dl : list Completion) (un : list Error) : World :=
  mkWorld (mkLift lo hi cur d Closed [t] [] false) nw [] [] (dl ++ [Normal]) un.

(** A call the car can only reach travelling the other way: for Up at the
    lowest floor, for Down at the highest. *)
Definition terminal_call (l : Lift) (c : Call) : Prop :=
  (floor c = minFloor l /\ call_direction c = CallUp) \/
  (floor c = maxFloor l /\ call_direction c = CallDown).

Definition door_frame (f : Frame) : bool :=
  match f with FOpenDoors | FCloseDoors => true | _ => false end.

(** A car travelling with closed doors, no door operation in flight or
    queued, and nothing pending but the calls [cs], all of them terminal. *)
Record passing (cs : list Call) (w : World) : Prop := mkPassing {
  pass_dir : direction (lift w) <> Idle;
  pass_doors : doors (lift w) = Closed;
  pass_panel : panelRequests (lift w) = [];
  pass_calls : calls (lift w) = cs;
  pass_terminal : Forall (terminal_call (lift w)) cs;
  pass_tasks : Forall (Forall (fun f => door_frame f = false)) (tasks w)
}.

(** The car of floors 1 to 5 started at 3, called for Up at floor 1, with
    stepUntilStop() under way. *)
Definition world_called_up_at_bottom : World :=
  run [ECallFrom 1 CallUp; EStepUntilStop stepUntilStop_default] (boot car_1_5_3).

(* ------------------------------------------------------------------ *)
(** ** Basic facts *)

Lemma Direction_eqb_eq (a b : Direction) : Direction_eqb a b = true <-> a = b.
Proof. destruct a, b; simpl; split; congruence. Qed.

Lemma Direction_eqb_neq (a b : Direction) : Direction_eqb a b = false <-> a <> b.
Proof. destruct a, b; simpl; split; congruence. Qed.

Lemma new_Lift_ok (lo hi s : Z) (l : Lift) :
  new_Lift lo hi s = inl l ->
  l = mkLift lo hi s Idle Closed [] [] false /\ lo <= s <= hi.
Proof.
  unfold new_Lift.
  destruct (lo >? hi) eqn:E1; [discriminate|].
  destruct ((s <? lo) || (s >? hi)) eqn:E2; [discriminate|].
  intros H; inversion H; subst; split; [reflexivity|].
  apply orb_false_iff in E2 as [A B]. lia.
Qed.

Lemma car_1_5_3_built : new_Lift 1 5 3 = inl car_1_5_3.
Proof. reflexivity. Qed.

Lemma run_reachable (lo hi s : Z) (l : Lift) (es : list Event) :
  new_Lift lo hi s = inl l -> reachable (run es (boot l)).
Proof. intros H. exists lo, hi, s, l, es. split; [exact H | reflexivity]. Qed.

Lemma world_opening_reachable : reachable world_opening.
Proof. apply (run_reachable 1 5 3). reflexivity. Qed.

Lemma world_4_then_2_reachable : reachable world_4_then_2.
Proof. apply (run_reachable 1 5 3). reflexivity. Qed.

Lemma world_parked_on_request_reachable : reachable world_parked_on_request.
Proof. apply (run_reachable 1 5 3). reflexivity. Qed.

Lemma world_arriving_at_4_reachable : reachable world_arriving_at_4.
Proof. apply (run_reachable 1 5 5). reflexivity. Qed.

Lemma lift_settle_promise (c : Completion) (k : Task) (w : World) :
  lift (settle_promise c k w) = lift w.
Proof. unfold settle_promise. destruct k as [|[] k']; try destruct c; reflexivity. Qed.

Lemma set_direction_same (l : Lift) (d : Direction) :
  direction l = d -> set_direction d l = l.
Proof. destruct l; simpl; intros ->; reflexivity. Qed.

Lemma on_lift_set_direction_same (w : World) (d : Direction) :
  direction (lift w) = d -> on_lift (set_direction d) w = w.
Proof.
  intros H. destruct w as [l n t j dl u]; unfold on_lift; simpl in *.
  now rewrite (set_direction_same l d H).
Qed.

(* ------------------------------------------------------------------ *)
(** ** Guards of the timed operations *)



(** C8 (no move with open doors): with doors open moveOneFloor is rejected
    with DoorsOpenError whatever busy, the direction and the requests are,
    and nothing changes. *)
Theorem no_move_with_open_doors (w : World) (k : Task) :
  doors (lift w) = Open ->
  moveOneFloor k w = (Done (Abrupt DoorsOpenError), w).
Proof. intros H; unfold moveOneFloor; now rewrite H. Qed.

Lemma no_move_with_open_doors_witness :
  moveOneFloor [] world_closing = (Done (Abrupt DoorsOpenError), world_closing).
Proof. apply (no_move_with_open_doors world_closing []). reflexivity. Defined.

(** C10 (no-op precedence): openDoors with doors open, and closeDoors with
    doors closed, return normally and change nothing, busy or not. *)
Theorem noop_before_busy (w : World) (k : Task) :
  (doors (lift w) = Open -> openDoors k w = (Done Normal, w)) /\
  (doors (lift w) = Closed -> closeDoors k w = (Done Normal, w)).
Proof.
  split; intros H; [unfold openDoors | unfold closeDoors]; now rewrite H.
Qed.

Lemma noop_before_busy_witness :
  busy (lift world_opening) = true /\
  closeDoors [] world_opening = (Done Normal, world_opening).
Proof.
  split; [reflexivity|].
  apply (proj2 (noop_before_busy world_opening [])). reflexivity.
Defined.

(** C6 (mutual exclusion), as the code has it: while busy, a timed operation
    that gets past its door test is rejected with BusyError (openDoors and
    moveOneFloor with doors closed, closeDoors with doors open); with the
    other door state openDoors and closeDoors return normally and
    moveOneFloor is rejected with DoorsOpenError.  Nothing changes in any
    of these cases. *)
Theorem busy_guard (w : World) (k : Task) :
  busy (lift w) = true ->
  (doors (lift w) = Closed ->
     openDoors k w = (Done (Abrupt BusyError), w) /\
     moveOneFloor k w = (Done (Abrupt BusyError), w) /\
     closeDoors k w = (Done Normal, w)) /\
  (doors (lift w) = Open ->
     closeDoors k w = (Done (Abrupt BusyError), w) /\
     openDoors k w = (Done Normal, w) /\
     moveOneFloor k w = (Done (Abrupt DoorsOpenError), w)).
Proof.
  intros Hb; split; intros Hd;
    unfold openDoors, closeDoors, moveOneFloor; rewrite Hd, ?Hb; auto.
Qed.

Lemma busy_guard_witness :
  openDoors [] world_opening = (Done (Abrupt BusyError), world_opening).
Proof.
  apply (proj1 (busy_guard world_opening [] eq_refl)). reflexivity.
Defined.

(** C6 as stated fails: while the detached door-open of pressButton(3) is in
    flight (busy), closeDoors returns normally instead of failing. *)
Lemma busy_guard_counterexample :
  reachable world_opening /\
  busy (lift world_opening) = true /\
  fst (closeDoors [] world_opening) = Done Normal /\
  fst (closeDoors [] world_opening) <> Done (Abrupt BusyError).
Proof.
  split; [apply world_opening_reachable|].
  split; [reflexivity | split; [reflexivity | vm_compute; discriminate]].
Qed.

(* ------------------------------------------------------------------ *)
(** ** Containers *)

Lemma has_In (x : Z) (s : list Z) : JsSet.has x s = true <-> In x s.
Proof.
  unfold JsSet.has. rewrite existsb_exists. split.
  - intros (y & Hy & E). apply Z.eqb_eq in E. now subst.
  - intros H. exists x. split; [assumption | apply Z.eqb_refl].
Qed.

Lemma delete_In (x y : Z) (s : list Z) :
  In y (JsSet.delete x s) <-> In y s /\ y <> x.
Proof.
  unfold JsSet.delete. rewrite filter_In, negb_true_iff, Z.eqb_neq. tauto.
Qed.

Lemma insert_asc_In (x y : Z) (l : list Z) :
  In y (insert_asc x l) <-> y = x \/ In y l.
Proof.
  induction l as [|z r IH]; simpl.
  - intuition.
  - destruct (x <? z); simpl; rewrite ?IH; intuition.
Qed.

Lemma sort_asc_In (y : Z) (l : list Z) : In y (sort_asc l) <-> In y l.
Proof.
  unfold sort_asc.
  enough (G : forall acc, In y (fold_left (fun a x => insert_asc x a) l acc)
                          <-> In y acc \/ In y l).
  { rewrite G. simpl. tauto. }
  induction l as [|x r IH]; intros acc; simpl.
  - tauto.
  - rewrite IH, insert_asc_In. intuition.
Qed.

Lemma insert_asc_sorted (x : Z) (l : list Z) :
  Sorted Z.le l -> Sorted Z.le (insert_asc x l).
Proof.
  induction l as [|y r IH]; simpl; intros H.
  - repeat constructor.
  - destruct (x <? y) eqn:E.
    + apply Z.ltb_lt in E. constructor; [assumption | constructor; lia].
    + apply Z.ltb_ge in E. inversion H as [|? ? Hr Hh]; subst.
      constructor; [now apply IH|].
      destruct r as [|z r']; simpl.
      * constructor; assumption.
      * destruct (x <? z); constructor; [assumption | now inversion Hh].
Qed.

(** The getter returns the pending floors in ascending order. *)
Lemma sort_asc_sorted (l : list Z) : Sorted Z.le (sort_asc l).
Proof.
  unfold sort_asc.
  enough (G : forall acc, Sorted Z.le acc ->
                          Sorted Z.le (fold_left (fun a x => insert_asc x a) l acc)).
  { apply G. constructor. }
  induction l as [|x r IH]; intros acc Ha; simpl; [assumption|].
  apply IH. now apply insert_asc_sorted.
Qed.

Lemma sort_asc_nil (l : list Z) : sort_asc l = [] -> l = [].
Proof.
  destruct l as [|x r]; [reflexivity|]. intros H.
  assert (I : In x (sort_asc (x :: r))) by (apply sort_asc_In; now left).
  rewrite H in I. destruct I.
Qed.

(* ------------------------------------------------------------------ *)
(** ** Fulfilment *)

(** What the body of openDoors after its sleep does to any car. *)
Lemma openDoors_resumed_lift (w : World) :
  let l := lift w in
  let l' := lift (openDoors_resumed w) in
  currentFloor l' = currentFloor l /\
  doors l' = Open /\
  busy l' = false /\
  panelRequests l' = JsSet.delete (currentFloor l) (panelRequests l) /\
  calls l' = filter (fun c => negb (floor c =? currentFloor l)) (calls l) /\
  (panelRequests l' = [] -> calls l' = [] -> direction l' = Idle) /\
  (hasPendingRequests l' = true -> direction l' = direction l).
Proof.
  destruct w as [l n t j dl u]; simpl.
  unfold fulfillAtCurrentFloor; simpl.
  set (p := JsSet.delete (currentFloor l) (panelRequests l)).
  set (c := filter (fun c => negb (floor c =? currentFloor l)) (calls l)).
  destruct (hasPendingRequests _) eqn:E; simpl; repeat split; try reflexivity;
    unfold hasPendingRequests in *; simpl in *; fold p c in E.
  - intros Hp Hc. rewrite Hp, Hc in E. discriminate.
  - fold p c. intros H. rewrite H in E. discriminate.
Qed.

(** C2 (fulfilment completeness): when openDoors takes its full path (doors
    closed, not busy) it parks on the door timer, and once it has gone on
    from there the doors are open at the same floor, that floor is in
    neither getter, the requests and calls of other floors are as before,
    and the direction is Idle if nothing is left.  On a car at rest the
    event loop gets there by firing the door timer and running the job it
    queues. *)
Theorem fulfillment_completeness (w : World) (k : Task) :
  doors (lift w) = Closed ->
  busy (lift w) = false ->
  let here := currentFloor (lift w) in
  let started := snd (openDoors k w) in
  let done := snd (resume FOpenDoors Normal k started) in
  openDoors k w
    = (Pending, sleep 1000 (FOpenDoors :: k) (on_lift (set_busy true) w)) /\
  fst (resume FOpenDoors Normal k started) = Done Normal /\
  currentFloor (lift done) = here /\
  doors (lift done) = Open /\
  busy (lift done) = false /\
  ~ In here (pendingPanelRequests (lift done)) /\
  (forall c, In c (pendingCalls (lift done)) -> floor c <> here) /\
  (forall f, f <> here ->
     (In f (pendingPanelRequests (lift done))
      <-> In f (pendingPanelRequests (lift w)))) /\
  panelRequests (lift done)
    = filter (fun f => negb (f =? here)) (panelRequests (lift w)) /\
  pendingCalls (lift done)
    = filter (fun c => negb (floor c =? here)) (pendingCalls (lift w)) /\
  (pendingPanelRequests (lift done) = [] -> pendingCalls (lift done) = [] ->
   direction (lift done) = Idle) /\
  (timers w = [] -> jobs w = [] ->
   lift (run [ETimer; EJob] started) = lift done /\
   timers (run [ETimer; EJob] started) = [] /\
   now (run [ETimer; EJob] started) = now w + 1000).
Proof.
  intros Hd Hb here started done.
  assert (Es : openDoors k w
               = (Pending, sleep 1000 (FOpenDoors :: k) (on_lift (set_busy true) w))).
  { unfold openDoors. now rewrite Hd, Hb. }
  split; [exact Es|]. split; [reflexivity|].
  subst started done. rewrite Es. simpl snd.
  set (w1 := sleep 1000 (FOpenDoors :: k) (on_lift (set_busy true) w)).
  assert (L1 : currentFloor (lift w1) = here /\ panelRequests (lift w1) = panelRequests (lift w)
               /\ calls (lift w1) = calls (lift w)) by (repeat split).
  destruct L1 as (Lc & Lp & Lk).
  destruct (openDoors_resumed_lift w1) as (Hc & Ho & Hbz & Hp & Hk & Hi & _).
  rewrite Lc, Lp in Hp. rewrite Lc, Lk in Hk. rewrite Lc in Hc.
  unfold pendingPanelRequests, pendingCalls.
  split; [exact Hc|]. split; [exact Ho|]. split; [exact Hbz|].
  split; [rewrite sort_asc_In, Hp, delete_In; tauto|].
  split.
  { intros c Hin. rewrite Hk in Hin. apply filter_In in Hin as [_ Hn].
    apply negb_true_iff, Z.eqb_neq in Hn. exact Hn. }
  split.
  { intros f Hf. rewrite !sort_asc_In, Hp, delete_In. tauto. }
  split; [exact Hp|]. split; [exact Hk|].
  split.
  { intros Hs Hcs. apply Hi; [apply sort_asc_nil, Hs | exact Hcs]. }
  intros Ht Hj. unfold run, fold_left, step, fire_timer.
  replace (timers w1) with [(now w + 1000, FOpenDoors :: k)]
    by (unfold w1; simpl; now rewrite Ht).
  simpl pop_earliest. cbv iota beta.
  unfold run_job. simpl jobs. rewrite Hj. simpl app. cbv iota beta.
  unfold then_. simpl resume. cbv iota beta.
  rewrite lift_settle_promise.
  split; [reflexivity|].
  split.
  - unfold settle_promise. destruct k as [|[] k']; reflexivity.
  - unfold settle_promise. destruct k as [|[] k']; simpl; lia.
Qed.

Lemma fulfillment_completeness_witness :
  pendingPanelRequests (lift world_parked_3_4) = [3; 4] /\
  pendingPanelRequests
    (lift (snd (resume FOpenDoors Normal []
                       (snd (openDoors [] world_parked_3_4))))) = [4] /\
  ~ In 3 (pendingPanelRequests
            (lift (snd (resume FOpenDoors Normal []
                               (snd (openDoors [] world_parked_3_4)))))).
Proof.
  split; [reflexivity | split; [reflexivity|]].
  destruct (fulfillment_completeness world_parked_3_4 [] eq_refl eq_refl)
    as (_ & _ & _ & _ & _ & H & _).
  exact H.
Defined.

(* ------------------------------------------------------------------ *)
(** ** The lock discipline *)

Lemma quiet_head (k : Task) : quiet k -> head_sleeper k = false.
Proof. destruct k as [|f k]; [reflexivity|]. intros H; inversion H; assumption. Qed.

Lemma quiet_tail (f : Frame) (k : Task) : quiet (f :: k) -> quiet k.
Proof. intros H; inversion H; assumption. Qed.

Lemma quiet_cons (f : Frame) (k : Task) :
  is_sleeper f = false -> quiet k -> quiet (f :: k).
Proof. intros; constructor; assumption. Qed.

Lemma flight_nil (w : World) :
  flight w = [] ->
  timers w = [] /\ filter head_sleeper (map snd (jobs w)) = [].
Proof.
  unfold flight. intros H. apply app_eq_nil in H as [A B].
  split; [|exact B]. destruct (timers w); [reflexivity | discriminate].
Qed.

Lemma flight_sleep (ms : Z) (k : Task) (w : World) :
  flight w = [] -> flight (sleep ms k w) = [k].
Proof.
  intros H. apply flight_nil in H as [A B].
  unfold flight, sleep; simpl. rewrite A, B. reflexivity.
Qed.

Lemma flight_settle_promise (c : Completion) (k : Task) (w : World) :
  quiet k -> flight (settle_promise c k w) = flight w.
Proof.
  intros Hq. pose proof (quiet_head k Hq) as Hh.
  unfold settle_promise, flight.
  destruct k as [|f k']; [reflexivity|].
  assert (E : filter head_sleeper (map snd (jobs w ++ [(c, f :: k')]))
              = filter head_sleeper (map snd (jobs w))).
  { rewrite map_app, filter_app. simpl map. simpl filter.
    simpl in Hh. rewrite Hh. apply app_nil_r. }
  destruct f; simpl timers; simpl jobs;
    try (apply (f_equal (app (map snd (timers w)))); exact E).
  destruct c; reflexivity.
Qed.

Lemma Shape_on_lift (f : Lift -> Lift) (w : World) : Shape w -> Shape (on_lift f w).
Proof. intros []. constructor; assumption. Qed.

Lemma Shape_sleep (ms : Z) (f : Frame) (k : Task) (w : World) :
  Shape w -> is_sleeper f = true -> quiet k -> Shape (sleep ms (f :: k) w).
Proof.
  intros [] Hf Hk. constructor; simpl; [|assumption].
  apply Forall_app. split; [assumption|]. constructor; [|constructor].
  split; assumption.
Qed.

Lemma Shape_settle_promise (c : Completion) (k : Task) (w : World) :
  Shape w -> quiet k -> Shape (settle_promise c k w).
Proof.
  intros [] Hk.
  assert (J : Forall (fun j => quiet (tl (snd j))) (jobs w ++ [(c, k)])).
  { apply Forall_app. split; [assumption|]. constructor; [|constructor].
    destruct k; [constructor | now apply quiet_tail in Hk]. }
  unfold settle_promise.
  destruct k as [|[] k']; try destruct c; constructor; simpl; assumption.
Qed.

Lemma Mutex_on_lift (f : Lift -> Lift) (w : World) :
  Mutex w ->
  busy (f (lift w)) = busy (lift w) -> doors (f (lift w)) = doors (lift w) ->
  Mutex (on_lift f w).
Proof.
  intros [S B F | g k S B F D] Hb Hd.
  - apply Free; [now apply Shape_on_lift | simpl; congruence | exact F].
  - apply (Held _ g k); [now apply Shape_on_lift | simpl; congruence | exact F |].
    simpl. rewrite Hd. exact D.
Qed.

Lemma Locked_on_lift (f : Lift -> Lift) (w : World) :
  Locked w -> busy (f (lift w)) = busy (lift w) -> Locked (on_lift f w).
Proof.
  intros (S & B & F) Hb. split; [now apply Shape_on_lift|].
  split; [simpl; congruence | exact F].
Qed.

Lemma Mutex_settle_promise (c : Completion) (k : Task) (w : World) :
  Mutex w -> quiet k -> Mutex (settle_promise c k w).
Proof.
  intros [S B F | g k' S B F D] Hk.
  - apply Free; [now apply Shape_settle_promise | now rewrite lift_settle_promise |].
    now rewrite flight_settle_promise.
  - apply (Held _ g k'); [now apply Shape_settle_promise | | |];
      rewrite ?lift_settle_promise, ?flight_settle_promise; assumption.
Qed.

Lemma Mutex_then (k : Task) (r : Async * World) :
  Mutex (snd r) -> quiet k -> Mutex (then_ k r).
Proof.
  destruct r as [[c|] w]; simpl; intros Hm Hk; [|assumption].
  now apply Mutex_settle_promise.
Qed.

Lemma Locked_settle_promise (c : Completion) (k : Task) (w : World) :
  Locked w -> quiet k -> Locked (settle_promise c k w).
Proof.
  intros (S & B & F) Hk. split; [now apply Shape_settle_promise|].
  rewrite lift_settle_promise, flight_settle_promise; auto.
Qed.

(** Taking the lock: a free car goes to sleep in [f]. *)
Lemma Mutex_take (ms : Z) (f : Frame) (k : Task) (w : World) :
  Mutex w -> busy (lift w) = false ->
  is_sleeper f = true -> quiet k -> door_before f (doors (lift w)) ->
  Mutex (sleep ms (f :: k) (on_lift (set_busy true) w)).
Proof.
  intros [S B F | g k' S B F D] Hb Hf Hk Hd; [|congruence].
  apply (Held _ f k).
  - apply Shape_sleep; [apply Shape_on_lift| |]; assumption.
  - reflexivity.
  - apply flight_sleep. exact F.
  - exact Hd.
Qed.

Lemma Mutex_openDoors (k : Task) (w : World) :
  Mutex w -> quiet k -> Mutex (snd (openDoors k w)).
Proof.
  intros Hm Hk. unfold openDoors.
  destruct (doors (lift w)) eqn:Hd; [assumption|].
  destruct (busy (lift w)) eqn:Hb; [assumption|]. simpl.
  apply Mutex_take; auto.
Qed.

Lemma Mutex_closeDoors (k : Task) (w : World) :
  Mutex w -> quiet k -> Mutex (snd (closeDoors k w)).
Proof.
  intros Hm Hk. unfold closeDoors.
  destruct (doors (lift w)) eqn:Hd; [|assumption].
  destruct (busy (lift w)) eqn:Hb; [assumption|]. simpl.
  apply Mutex_take; auto.
Qed.

(** While the lock is held openDoors settles at once and changes nothing. *)
Lemma openDoors_locked (k : Task) (w : World) :
  busy (lift w) = true -> exists c, openDoors k w = (Done c, w).
Proof.
  intros Hb. unfold openDoors. destruct (doors (lift w)); rewrite ?Hb; eauto.
Qed.

Lemma Mutex_updateDirectionIfIdle (w : World) :
  Mutex w -> Mutex (updateDirectionIfIdle w).
Proof.
  intros Hm. unfold updateDirectionIfIdle.
  destruct (negb (Direction_eqb (direction (lift w)) Idle)); [assumption|].
  destruct (negb (hasPendingRequests (lift w))).
  { apply Mutex_on_lift; [assumption | reflexivity | reflexivity]. }
  destruct (targets (lift w)) as [|t0 r]; [assumption|].
  set (d := newDir _ _).
  assert (H1 : Mutex (on_lift (set_direction d) w)).
  { apply Mutex_on_lift; [assumption | reflexivity | reflexivity]. }
  assert (Hq : quiet [FVoid]) by (repeat constructor).
  destruct (Direction_eqb d Idle); [|assumption].
  apply Mutex_then; [apply Mutex_openDoors|]; assumption.
Qed.

Lemma Locked_updateDirectionIfIdle (w : World) :
  Locked w ->
  Locked (updateDirectionIfIdle w) /\
  doors (lift (updateDirectionIfIdle w)) = doors (lift w).
Proof.
  intros Hl. unfold updateDirectionIfIdle.
  destruct (negb (Direction_eqb (direction (lift w)) Idle)); [auto|].
  destruct (negb (hasPendingRequests (lift w))).
  { split; [apply Locked_on_lift; [assumption | reflexivity] | reflexivity]. }
  destruct (targets (lift w)) as [|t0 r]; [auto|].
  set (d := newDir _ _).
  assert (H1 : Locked (on_lift (set_direction d) w)).
  { apply Locked_on_lift; [assumption | reflexivity]. }
  destruct (Direction_eqb d Idle); [|auto].
  destruct (openDoors_locked [FVoid] (on_lift (set_direction d) w)) as (c & ->).
  { apply H1. }
  unfold then_. split.
  - apply Locked_settle_promise; [assumption | repeat constructor].
  - rewrite lift_settle_promise. reflexivity.
Qed.

Lemma Mutex_pressButton (f : Z) (w : World) :
  Mutex w -> Mutex (snd (pressButton f w)).
Proof.
  intros Hm. unfold pressButton.
  destruct (assertFloorInRange f (lift w)); [|assumption]. simpl.
  apply Mutex_updateDirectionIfIdle.
  apply Mutex_on_lift; [assumption | reflexivity | reflexivity].
Qed.

Lemma Mutex_callFrom (f : Z) (d : CallDirection) (w : World) :
  Mutex w -> Mutex (snd (callFrom f d w)).
Proof.
  intros Hm. unfold callFrom.
  destruct (assertFloorInRange f (lift w)); [|assumption]. simpl.
  apply Mutex_updateDirectionIfIdle.
  apply Mutex_on_lift; [assumption | reflexivity | reflexivity].
Qed.

Lemma Mutex_moveOneFloor_next (k : Task) (w : World) :
  Mutex w -> quiet k ->
  doors (lift w) = Closed -> busy (lift w) = false ->
  Mutex (snd (moveOneFloor_next k w)).
Proof.
  intros Hm Hk Hd Hb. unfold moveOneFloor_next.
  destruct (_ || _); simpl.
  - apply Mutex_on_lift; [assumption | reflexivity | reflexivity].
  - apply Mutex_take; auto.
Qed.

(** An evaluation that leaves a direction other than Idle has started
    nothing. *)
Lemma updateDirectionIfIdle_moving (w : World) :
  direction (lift (updateDirectionIfIdle w)) <> Idle ->
  doors (lift (updateDirectionIfIdle w)) = doors (lift w) /\
  busy (lift (updateDirectionIfIdle w)) = busy (lift w).
Proof.
  unfold updateDirectionIfIdle.
  destruct (negb (Direction_eqb (direction (lift w)) Idle)); [auto|].
  destruct (negb (hasPendingRequests (lift w))); [auto|].
  destruct (targets (lift w)) as [|t0 r]; [auto|].
  set (d := newDir _ _).
  destruct (Direction_eqb d Idle) eqn:Ed; [|auto].
  apply Direction_eqb_eq in Ed. intros H. exfalso. apply H.
  unfold openDoors. simpl doors. simpl busy.
  destruct (doors (lift w)); [exact Ed|].
  destruct (busy (lift w)); exact Ed.
Qed.

Lemma Mutex_moveOneFloor (k : Task) (w : World) :
  Mutex w -> quiet k -> Mutex (snd (moveOneFloor k w)).
Proof.
  intros Hm Hk. unfold moveOneFloor.
  destruct (doors (lift w)) eqn:Hd; [assumption|].
  destruct (busy (lift w)) eqn:Hb; [assumption|].
  destruct (Direction_eqb (direction (lift w)) Idle).
  - pose proof (Mutex_updateDirectionIfIdle w Hm) as Hu.
    destruct (Direction_eqb _ Idle) eqn:Eu; [assumption|].
    apply Direction_eqb_neq in Eu.
    destruct (updateDirectionIfIdle_moving w Eu) as [A B].
    apply Mutex_moveOneFloor_next; try assumption; congruence.
  - now apply Mutex_moveOneFloor_next.
Qed.

Lemma Mutex_stepLoop (i m : Z) (k : Task) (w : World) :
  Mutex w -> quiet k -> Mutex (snd (stepLoop i m k w)).
Proof.
  intros Hm Hk. unfold stepLoop.
  assert (Hs : quiet (FStep i m :: k)) by (apply quiet_cons; auto).
  destruct (i <? m); [|assumption].
  destruct (doors (lift w)), (direction (lift w)); try assumption;
    simpl; (apply Mutex_then; [apply Mutex_moveOneFloor|]; assumption).
Qed.

Lemma Mutex_release (f : Lift -> Lift) (w : World) :
  Locked w -> busy (f (lift w)) = false -> Mutex (on_lift f w).
Proof.
  intros (S & B & F) Hb. apply Free; [now apply Shape_on_lift | exact Hb | exact F].
Qed.

Lemma Mutex_openDoors_resumed (w : World) : Locked w -> Mutex (openDoors_resumed w).
Proof.
  intros Hl. unfold openDoors_resumed. apply Mutex_release; [assumption | reflexivity].
Qed.

Lemma Mutex_closeDoors_resumed (w : World) : Locked w -> Mutex (closeDoors_resumed w).
Proof.
  intros Hl. unfold closeDoors_resumed.
  apply Mutex_release; [|reflexivity].
  apply Locked_updateDirectionIfIdle.
  apply Locked_on_lift; [assumption | reflexivity].
Qed.

Lemma Mutex_moveOneFloor_resumed (next : Z) (k : Task) (w : World) :
  Locked w -> doors (lift w) = Closed -> quiet k ->
  Mutex (snd (moveOneFloor_resumed next k w)).
Proof.
  intros Hl Hd Hk. unfold moveOneFloor_resumed.
  set (w1 := on_lift _ w).
  assert (H1 : Mutex w1) by (apply Mutex_release; [assumption | reflexivity]).
  assert (Hs : quiet (FMoveOpen :: k)) by (apply quiet_cons; auto).
  destruct (shouldStopAtFloor _ _); simpl; [|assumption].
  apply Mutex_then; [apply Mutex_openDoors|]; assumption.
Qed.

(** Running a job: a woken sleeper holds the lock alone; any other job runs
    between operations. *)
Lemma Mutex_run_job (w : World) : Mutex w -> Mutex (run_job w).
Proof.
  intros Hm. unfold run_job.
  destruct (jobs w) as [|[c k] js] eqn:Ej; [assumption|].
  set (w1 := with_jobs js w).
  assert (Sw : Shape w) by (destruct Hm; assumption).
  assert (Hk : quiet (tl k) /\ Shape w1).
  { destruct Sw as [St Sj]. rewrite Ej in Sj. inversion Sj; subst.
    split; [assumption | constructor; assumption]. }
  destruct Hk as [Hk S1].
  assert (Fw : flight w = map snd (timers w)
                           ++ (if head_sleeper k then [k] else [])
                           ++ filter head_sleeper (map snd js)).
  { unfold flight. rewrite Ej. simpl. destruct (head_sleeper k); reflexivity. }
  destruct k as [|f k']; simpl in Hk.
  { simpl in Fw.
    assert (F1 : flight w1 = flight w) by (rewrite Fw; reflexivity).
    destruct Hm as [S B F | g k S B F D].
    - apply Free; [assumption | exact B | congruence].
    - apply (Held _ g k); [assumption | exact B | congruence | exact D]. }
  destruct (is_sleeper f) eqn:Ef.
  - (* the operation in flight wakes up *)
    simpl in Fw. rewrite Ef in Fw.
    destruct Hm as [S B F | g k S B F D].
    { rewrite F in Fw. destruct (map snd (timers w)); discriminate. }
    rewrite F in Fw.
    assert (T : map snd (timers w) = [] /\ g :: k = f :: k'
                /\ filter head_sleeper (map snd js) = []).
    { destruct (map snd (timers w)) as [|a r]; simpl in Fw.
      - inversion Fw; subst. auto.
      - inversion Fw as [[A Bb]]. destruct r; discriminate. }
    destruct T as (T1 & T2 & T3). inversion T2; subst g k.
    assert (L1 : Locked w1).
    { split; [assumption|]. split; [exact B|].
      unfold flight. simpl. rewrite T1, T3. reflexivity. }
    assert (D1 : door_before f (doors (lift w1))) by exact D.
    apply Mutex_then; [|assumption].
    destruct f; simpl in Ef; try discriminate; simpl.
    + now apply Mutex_openDoors_resumed.
    + now apply Mutex_closeDoors_resumed.
    + now apply Mutex_moveOneFloor_resumed.
  - (* a promise continuation *)
    simpl in Fw. rewrite Ef in Fw. simpl in Fw.
    assert (M1 : Mutex w1).
    { destruct Hm as [S B F | g k S B F D].
      - apply Free; [assumption | exact B | unfold flight; simpl; congruence].
      - apply (Held _ g k); [assumption | exact B | unfold flight; simpl; congruence | exact D]. }
    apply Mutex_then; [|assumption].
    destruct f; simpl in Ef; try discriminate; simpl; try assumption.
    destruct c; [now apply Mutex_stepLoop | assumption].
Qed.

Lemma Mutex_fire_timer (w : World) : Mutex w -> Mutex (fire_timer w).
Proof.
  intros Hm. unfold fire_timer.
  destruct (pop_earliest (timers w)) as [[[due k] rest]|] eqn:E; [|assumption].
  destruct Hm as [S B F | g k0 S B F D].
  { apply flight_nil in F as [T _]. rewrite T in E. discriminate. }
  assert (T : timers w = [(due, k)] /\ rest = [] /\ k = g :: k0
              /\ filter head_sleeper (map snd (jobs w)) = []).
  { unfold flight in F. destruct (timers w) as [|a [|b r]]; simpl in *.
    - discriminate.
    - inversion E; subst. simpl in F. inversion F; subst. auto.
    - inversion F as [[A Bb]]. }
  destruct T as (T1 & -> & -> & T4).
  assert (Hg : is_sleeper g = true /\ quiet k0).
  { destruct S as [St _]. rewrite T1 in St. inversion St; subst. assumption. }
  destruct Hg as [Hg Hk0].
  apply (Held _ g k0).
  - destruct S as [St Sj]. constructor; simpl; [constructor|].
    apply Forall_app. split; [assumption | constructor; [exact Hk0 | constructor]].
  - exact B.
  - unfold flight. simpl. rewrite map_app, filter_app, T4. simpl. now rewrite Hg.
  - exact D.
Qed.

Lemma Mutex_idle_for (dt : Z) (w : World) : Mutex w -> Mutex (idle_for dt w).
Proof.
  intros Hm. unfold idle_for. destruct (_ && _); [|assumption].
  destruct Hm as [[] B F | g k [] B F D];
    [apply Free | apply (Held _ g k)]; try assumption; constructor; assumption.
Qed.

Lemma Mutex_step (w : World) (e : Event) : Mutex w -> Mutex (step w e).
Proof.
  intros Hm. assert (Hn : quiet []) by constructor. destruct e; simpl.
  - now apply Mutex_pressButton.
  - now apply Mutex_callFrom.
  - apply Mutex_then; [apply Mutex_openDoors|]; assumption.
  - apply Mutex_then; [apply Mutex_closeDoors|]; assumption.
  - apply Mutex_then; [apply Mutex_moveOneFloor|]; assumption.
  - apply Mutex_then; [apply Mutex_stepLoop|]; assumption.
  - now apply Mutex_run_job.
  - now apply Mutex_fire_timer.
  - now apply Mutex_idle_for.
Qed.

Lemma Mutex_run (es : list Event) (w : World) : Mutex w -> Mutex (run es w).
Proof.
  revert w. induction es as [|e es IH]; intros w Hm; simpl; [assumption|].
  apply IH. now apply Mutex_step.
Qed.

Lemma Mutex_reachable (w : World) : reachable w -> Mutex w.
Proof.
  intros (lo & hi & s & l & es & Hn & ->). apply Mutex_run.
  apply new_Lift_ok in Hn as [-> _].
  apply Free; [constructor; constructor | reflexivity | reflexivity].
Qed.

(** A move that wakes up in a reachable state finds the doors closed and
    the lock its own. *)
Lemma arrival_doors_closed (w : World) c next k js :
  reachable w -> jobs w = (c, FMoveSleep next :: k) :: js ->
  doors (lift w) = Closed /\ busy (lift w) = true /\ timers w = [].
Proof.
  intros Hr Ej. destruct (Mutex_reachable w Hr) as [S B F | g k0 S B F D];
    unfold flight in F; rewrite Ej in F; simpl in F.
  - destruct (map snd (timers w)); discriminate.
  - destruct (timers w) as [|a r]; simpl in F.
    + inversion F; subst. auto.
    + inversion F as [[A Bb]]. destruct (map snd r); discriminate.
Qed.

(* ------------------------------------------------------------------ *)
(** ** Stop decision *)

Lemma shouldStopAtFloor_spec (l : Lift) (f : Z) :
  shouldStopAtFloor l f = true <-> stop_rule l f.
Proof.
  unfold shouldStopAtFloor, stop_rule.
  destruct (JsSet.has f (panelRequests l)) eqn:Hp.
  { apply has_In in Hp. tauto. }
  assert (Np : ~ In f (panelRequests l)).
  { intros H. apply has_In in H. congruence. }
  set (here := filter (fun c => floor c =? f) (calls l)).
  assert (Hin : forall c, In c here <-> In c (calls l) /\ floor c = f).
  { intros c. unfold here. rewrite filter_In, Z.eqb_eq. tauto. }
  destruct here as [|c0 r] eqn:Eh.
  - simpl. split; [discriminate|].
    intros [H | [(c & Hc) _]]; [tauto|]. apply Hin in Hc. destruct Hc.
  - change (Z.of_nat (length (c0 :: r)) =? 0) with false. cbv iota.
    assert (H0 : exists c, In c (calls l) /\ floor c = f).
    { exists c0. apply Hin. now left. }
    destruct (Direction_eqb (direction l) Idle) eqn:Ed.
    + apply Direction_eqb_eq in Ed. tauto.
    + apply Direction_eqb_neq in Ed. rewrite existsb_exists. split.
      * intros (c & Hc & E). apply Direction_eqb_eq in E. apply Hin in Hc.
        right. split; [assumption|]. right. exists c. tauto.
      * intros [H | [_ [H | (c & Hc & Hf & E)]]]; [tauto | tauto |].
        exists c. split; [apply Hin; tauto | now apply Direction_eqb_eq].
Qed.

(** What moveOneFloor does when it wakes up with the doors closed. *)
Lemma moveOneFloor_resumed_stop (w : World) (next : Z) (k : Task) :
  doors (lift w) = Closed ->
  let arrived := on_lift (fun l => set_busy false (set_currentFloor next l)) w in
  (shouldStopAtFloor (lift w) next = true ->
   moveOneFloor_resumed next k w
   = (Pending, sleep 1000 (FOpenDoors :: FMoveOpen :: k)
                     (on_lift (set_busy true) arrived))) /\
  (shouldStopAtFloor (lift w) next = false ->
   moveOneFloor_resumed next k w = (Done Normal, arrived)).
Proof.
  intros Hd arrived.
  assert (Ea : shouldStopAtFloor (lift arrived) (currentFloor (lift arrived))
               = shouldStopAtFloor (lift w) next) by reflexivity.
  unfold moveOneFloor_resumed. fold arrived. rewrite Ea.
  split; intros ->; [|reflexivity].
  unfold openDoors.
  replace (doors (lift arrived)) with Closed by (symmetry; exact Hd).
  reflexivity.
Qed.

(** C4 (stop decision): [shouldStopAtFloor] holds exactly when the floor is
    a panel request, or there is a call at the floor and the direction is
    Idle or that of some call at the floor; calls at the floor that all ask
    for another direction cause no stop.  When a move wakes up in a
    reachable state (the car arrives at [next]), it starts the door-open
    exactly in that case: the car is busy again, asleep on the door timer,
    and that sleep ends with the doors open at [next]; otherwise the move
    is over, the doors stay closed and the car is not busy. *)
Theorem stop_decision (w : World) (c : Completion) (next : Z) (k : Task)
        (js : list (Completion * Task)) :
  reachable w ->
  jobs w = (c, FMoveSleep next :: k) :: js ->
  let arrived :=
    on_lift (fun l => set_busy false (set_currentFloor next l)) (with_jobs js w) in
  (shouldStopAtFloor (lift w) next = true <-> stop_rule (lift w) next) /\
  (~ In next (panelRequests (lift w)) ->
   direction (lift w) <> Idle ->
   (forall c', In c' (calls (lift w)) -> floor c' = next ->
               call_dir (call_direction c') <> direction (lift w)) ->
   shouldStopAtFloor (lift w) next = false) /\
  currentFloor (lift (run_job w)) = next /\
  (stop_rule (lift w) next ->
   run_job w = sleep 1000 (FOpenDoors :: FMoveOpen :: k)
                     (on_lift (set_busy true) arrived) /\
   busy (lift (run_job w)) = true /\
   timers (run_job w) = [(now w + 1000, FOpenDoors :: FMoveOpen :: k)] /\
   doors (lift (openDoors_resumed (run_job w))) = Open /\
   currentFloor (lift (openDoors_resumed (run_job w))) = next) /\
  (~ stop_rule (lift w) next ->
   run_job w = settle_promise Normal k arrived /\
   busy (lift (run_job w)) = false /\
   timers (run_job w) = [] /\
   doors (lift (run_job w)) = Closed).
Proof.
  intros Hr Ej arrived.
  destruct (arrival_doors_closed w c next k js Hr Ej) as (Hd & Hb & Ht).
  destruct (moveOneFloor_resumed_stop (with_jobs js w) next k Hd) as [Hs Hn].
  fold arrived in Hs, Hn. change (lift (with_jobs js w)) with (lift w) in Hs, Hn.
  assert (Er : run_job w = then_ k (moveOneFloor_resumed next k (with_jobs js w))).
  { unfold run_job. rewrite Ej. reflexivity. }
  split; [apply shouldStopAtFloor_spec|].
  split.
  { intros Hp Hi Hc. destruct (shouldStopAtFloor (lift w) next) eqn:E; [|reflexivity].
    apply shouldStopAtFloor_spec in E.
    destruct E as [H | [_ [H | (c' & H1 & H2 & H3)]]]; try tauto.
    exfalso. exact (Hc c' H1 H2 H3). }
  destruct (shouldStopAtFloor (lift w) next) eqn:E.
  - rewrite (Hs eq_refl) in Er. simpl then_ in Er. rewrite Er.
    split; [reflexivity|].
    split.
    + intros _. split; [reflexivity|]. split; [reflexivity|].
      split; [simpl; rewrite Ht; reflexivity|].
      destruct (openDoors_resumed_lift
                  (sleep 1000 (FOpenDoors :: FMoveOpen :: k)
                         (on_lift (set_busy true) arrived))) as (Hcur & Hopen & _).
      split; [exact Hopen | exact Hcur].
    + intros Hno. exfalso. apply Hno. now apply shouldStopAtFloor_spec.
  - rewrite (Hn eq_refl) in Er. unfold then_ in Er. rewrite Er.
    rewrite lift_settle_promise.
    split; [reflexivity|].
    split.
    + intros Hyes. apply shouldStopAtFloor_spec in Hyes. congruence.
    + intros _. split; [reflexivity|]. split; [reflexivity|].
      split; [|exact Hd].
      unfold settle_promise. destruct k as [|[] k']; try destruct c; exact Ht.
Qed.

Lemma stop_decision_witness :
  shouldStopAtFloor (lift world_arriving_at_4) 4 = true /\
  currentFloor (lift (run_job world_arriving_at_4)) = 4 /\
  (stop_rule (lift world_arriving_at_4) 4 ->
   timers (run_job world_arriving_at_4) = [(4000, [FOpenDoors; FMoveOpen])]).
Proof.
  split; [reflexivity|].
  destruct (stop_decision world_arriving_at_4 Normal 4 [] []
              world_arriving_at_4_reachable eq_refl)
    as (_ & _ & Hc & Hs & _).
  split; [exact Hc|].
  intros H. destruct (Hs H) as (_ & _ & Ht & _). exact Ht.
Defined.

(* ------------------------------------------------------------------ *)
(** ** Running the loop *)

Lemma settle_quiescent (n : nat) (w : World) :
  quiescent w = true -> settle n w = w.
Proof.
  unfold quiescent. destruct n; simpl; [reflexivity|].
  destruct (jobs w), (timers w); intros H; try discriminate; reflexivity.
Qed.

Lemma settle_add (n m : nat) (w : World) :
  settle (n + m) w = settle m (settle n w).
Proof.
  revert w. induction n as [|n IH]; intros w; simpl; [reflexivity|].
  destruct (jobs w) eqn:Ej, (timers w) eqn:Et; try apply IH.
  symmetry. apply settle_quiescent. unfold quiescent. now rewrite Ej, Et.
Qed.

(** C9 (scenario): on the car (1, 5, 3), callFrom(1, Down) sets the direction
    Down; stepUntilStop() with its default bound, left to run, comes to an
    end: its promise is fulfilled, nothing is left in flight, the car is at
    floor 1 with the doors open and no call pending. *)
Theorem scenario_call_from_floor_1 :
  new_Lift 1 5 3 = inl car_1_5_3 /\
  fst (callFrom 1 CallDown (boot car_1_5_3)) = Normal /\
  direction (lift (snd (callFrom 1 CallDown (boot car_1_5_3)))) = Down /\
  forall extra : nat,
    let final :=
      settle (10 + extra)
             (step (snd (callFrom 1 CallDown (boot car_1_5_3)))
                   (EStepUntilStop stepUntilStop_default)) in
    quiescent final = true /\
    delivered final = [Normal] /\
    unhandled final = [] /\
    currentFloor (lift final) = 1 /\
    doors (lift final) = Open /\
    pendingCalls (lift final) = [] /\
    now final = 7000.
Proof.
  split; [reflexivity|]. split; [reflexivity|]. split; [reflexivity|].
  intros extra final. subst final. rewrite settle_add.
  rewrite settle_quiescent; [|vm_compute; reflexivity].
  vm_compute. repeat split.
Qed.

(* ------------------------------------------------------------------ *)
(** ** Direction selection *)

Section Nearest.
Variable cur : Z.

Let dist (t : Z) : Z := Z.abs (t - cur).

Lemma first_nearest_snoc_keep (pre : list Z) (i : nat) (a t : Z) :
  first_nearest cur pre i a -> dist a <= dist t ->
  first_nearest cur (pre ++ [t]) i a.
Proof.
  intros (Hn & Hall & Hlt) Hle.
  assert (Hi : (i < length pre)%nat) by (apply nth_error_Some; congruence).
  split; [|split].
  - rewrite nth_error_app1; assumption.
  - intros j u Hj. destruct (Nat.lt_ge_cases j (length pre)) as [L | L].
    + rewrite nth_error_app1 in Hj by assumption. eauto.
    + rewrite nth_error_app2 in Hj by assumption.
      destruct (j - length pre)%nat as [|m]; simpl in Hj.
      * inversion Hj; subst. exact Hle.
      * destruct m; discriminate.
  - intros j u Hji Hj. rewrite nth_error_app1 in Hj by lia. eauto.
Qed.

Lemma first_nearest_snoc_take (pre : list Z) (i : nat) (a t : Z) :
  first_nearest cur pre i a -> dist t < dist a ->
  first_nearest cur (pre ++ [t]) (length pre) t.
Proof.
  intros (Hn & Hall & Hlt) Hle.
  split; [|split].
  - rewrite nth_error_app2, Nat.sub_diag by lia. reflexivity.
  - intros j u Hj. destruct (Nat.lt_ge_cases j (length pre)) as [L | L].
    + rewrite nth_error_app1 in Hj by assumption.
      specialize (Hall j u Hj). unfold dist in *. lia.
    + rewrite nth_error_app2 in Hj by assumption.
      destruct (j - length pre)%nat as [|m]; simpl in Hj.
      * inversion Hj; subst. lia.
      * destruct m; discriminate.
  - intros j u Hji Hj. rewrite nth_error_app1 in Hj by lia.
    specialize (Hall j u Hj). unfold dist in *. lia.
Qed.

(** The loop, started on the first nearest floor of what it has seen,
    ends on the first nearest floor of the whole list. *)
Lemma nearer_fold (ts pre : list Z) (i : nat) (a : Z) :
  first_nearest cur pre i a ->
  exists i',
    first_nearest cur (pre ++ ts) i'
                  (fst (fold_left (nearer cur) ts (a, dist a))).
Proof.
  revert pre i a. induction ts as [|t r IH]; intros pre i a Hf; simpl.
  - rewrite app_nil_r. eauto.
  - unfold nearer at 2. simpl snd. fold (dist t).
    replace (pre ++ t :: r) with ((pre ++ [t]) ++ r)
      by (rewrite <- app_assoc; reflexivity).
    destruct (dist t <? dist a) eqn:E.
    + apply Z.ltb_lt in E.
      apply (IH (pre ++ [t]) (length pre) t).
      eapply first_nearest_snoc_take; eassumption.
    + apply Z.ltb_ge in E.
      apply (IH (pre ++ [t]) i a).
      apply first_nearest_snoc_keep; assumption.
Qed.

Lemma nearest_target_first (t0 : Z) (r : list Z) :
  exists i, first_nearest cur (t0 :: r) i (nearest_target cur t0 (t0 :: r)).
Proof.
  unfold nearest_target. simpl fold_left.
  unfold nearer at 2. simpl snd. rewrite Z.ltb_irrefl.
  apply (nearer_fold r [t0] 0 t0).
  split; [reflexivity | split].
  - intros [|[|j]] u Hj; simpl in Hj; try discriminate.
    inversion Hj; subst. lia.
  - intros j u Hj. lia.
Qed.
End Nearest.

Lemma hasPending_targets (l : Lift) :
  hasPendingRequests l = true -> exists t0 r, targets l = t0 :: r.
Proof.
  unfold hasPendingRequests, targets.
  destruct (panelRequests l) as [|p ps]; [|simpl; eauto].
  destruct (calls l) as [|c cs]; [discriminate | simpl; eauto].
Qed.

(** The evaluation on an idle car with something pending, unfolded. *)
Lemma updateDirectionIfIdle_eval (w : World) :
  direction (lift w) = Idle ->
  hasPendingRequests (lift w) = true ->
  exists t0 r,
    targets (lift w) = t0 :: r /\
    let t := nearest_target (currentFloor (lift w)) t0 (t0 :: r) in
    (currentFloor (lift w) < t ->
     updateDirectionIfIdle w = on_lift (set_direction Up) w) /\
    (t < currentFloor (lift w) ->
     updateDirectionIfIdle w = on_lift (set_direction Down) w) /\
    (t = currentFloor (lift w) ->
     updateDirectionIfIdle w = then_ [FVoid] (openDoors [FVoid] w) /\
     direction (lift (updateDirectionIfIdle w)) = Idle).
Proof.
  intros Hd Hp.
  destruct (hasPending_targets _ Hp) as (t0 & r & Et).
  exists t0, r. split; [exact Et|]. intros t.
  unfold updateDirectionIfIdle. rewrite Hd, Hp, Et. simpl negb. cbv iota.
  fold t. unfold newDir.
  split; [|split].
  - intros H. replace (t >? currentFloor (lift w)) with true by (symmetry; lia).
    reflexivity.
  - intros H. replace (t >? currentFloor (lift w)) with false by (symmetry; lia).
    replace (t <? currentFloor (lift w)) with true by (symmetry; lia).
    reflexivity.
  - intros H. replace (t >? currentFloor (lift w)) with false by (symmetry; lia).
    replace (t <? currentFloor (lift w)) with false by (symmetry; lia).
    simpl Direction_eqb. cbv iota.
    rewrite (on_lift_set_direction_same w Idle Hd).
    split; [reflexivity|].
    unfold openDoors. destruct (doors (lift w)); [exact Hd|].
    destruct (busy (lift w)); exact Hd.
Qed.




(* ------------------------------------------------------------------ *)
(** ** Failing calls *)

Lemma updateDirectionIfIdle_nothing (w : World) :
  direction (lift w) = Idle ->
  hasPendingRequests (lift w) = false ->
  updateDirectionIfIdle w = w.
Proof.
  intros Hd Hp. unfold updateDirectionIfIdle. rewrite Hd, Hp. simpl.
  now apply on_lift_set_direction_same.
Qed.

Lemma moveOneFloor_next_not_abrupt (k : Task) (w : World) (e : Error) :
  fst (moveOneFloor_next k w) <> Done (Abrupt e).
Proof.
  unfold moveOneFloor_next. destruct (_ || _); simpl; discriminate.
Qed.

(** A move that fails for want of a destination either found nothing
    pending, or found its nearest candidate at the current floor and has
    started the detached door-open. *)
Lemma moveOneFloor_no_destination (k : Task) (w : World) :
  fst (moveOneFloor k w) = Done (Abrupt NoDestinationError) ->
  doors (lift w) = Closed /\ busy (lift w) = false /\ direction (lift w) = Idle /\
  (hasPendingRequests (lift w) = false -> snd (moveOneFloor k w) = w) /\
  (hasPendingRequests (lift w) = true ->
   snd (moveOneFloor k w)
   = sleep 1000 [FOpenDoors; FVoid] (on_lift (set_busy true) w)).
Proof.
  unfold moveOneFloor.
  destruct (doors (lift w)) eqn:Hd; [discriminate|].
  destruct (busy (lift w)) eqn:Hb; [discriminate|].
  destruct (Direction_eqb (direction (lift w)) Idle) eqn:Ed.
  2:{ intros H. now apply moveOneFloor_next_not_abrupt in H. }
  apply Direction_eqb_eq in Ed.
  destruct (Direction_eqb (direction (lift (updateDirectionIfIdle w))) Idle) eqn:Eu.
  2:{ intros H. now apply moveOneFloor_next_not_abrupt in H. }
  apply Direction_eqb_eq in Eu. intros _. simpl snd.
  repeat split; try assumption.
  - intros Hp. now apply updateDirectionIfIdle_nothing.
  - intros Hp.
    destruct (updateDirectionIfIdle_eval w Ed Hp) as (t0 & r & _ & Hup & Hdn & Heq).
    destruct (Z.lt_trichotomy (currentFloor (lift w))
                (nearest_target (currentFloor (lift w)) t0 (t0 :: r))) as [L | [L | L]].
    + rewrite (Hup L) in Eu. discriminate.
    + destruct (Heq (eq_sym L)) as [-> _].
      unfold openDoors. rewrite Hd, Hb. reflexivity.
    + rewrite (Hdn L) in Eu. discriminate.
Qed.




(* ------------------------------------------------------------------ *)
(** ** The range invariant *)

Section Range.
Variables lo hi : Z.

Local Abbreviation ok := (task_ok lo hi).
Local Abbreviation I := (Inv lo hi).

Lemma task_ok_nil : ok [].
Proof. intros n []. Qed.

Lemma task_ok_tail (f : Frame) (k : Task) : ok (f :: k) -> ok k.
Proof. intros H n Hn. apply H. now right. Qed.

Lemma task_ok_cons (f : Frame) (k : Task) :
  (forall n, f = FMoveSleep n -> lo <= n <= hi) -> ok k -> ok (f :: k).
Proof. intros Hf Hk n [E | Hn]; [now apply Hf | now apply Hk]. Qed.

Lemma task_ok_plain (f : Frame) (k : Task) :
  match f with FMoveSleep _ => False | _ => True end -> ok k -> ok (f :: k).
Proof.
  intros Hf. apply task_ok_cons. intros n ->. destruct Hf.
Qed.

Lemma Inv_on_lift (f : Lift -> Lift) (w : World) :
  I w ->
  minFloor (f (lift w)) = lo -> maxFloor (f (lift w)) = hi ->
  lo <= currentFloor (f (lift w)) <= hi ->
  I (on_lift f w).
Proof. intros [] A B C. constructor; assumption. Qed.

(** Writes to fields other than the floor keep the invariant. *)
Lemma Inv_on_lift_same (f : Lift -> Lift) (w : World) :
  I w ->
  (minFloor (f (lift w)) = minFloor (lift w) /\
   maxFloor (f (lift w)) = maxFloor (lift w) /\
   currentFloor (f (lift w)) = currentFloor (lift w)) ->
  I (on_lift f w).
Proof.
  intros Hi (A & B & C). apply Inv_on_lift; [assumption | | |].
  - rewrite A. apply Hi.
  - rewrite B. apply Hi.
  - rewrite C. apply Hi.
Qed.

Lemma Inv_sleep (ms : Z) (k : Task) (w : World) :
  I w -> ok k -> I (sleep ms k w).
Proof.
  intros [] Hk. constructor; simpl; try assumption.
  apply Forall_app. split; [assumption | constructor; [exact Hk | constructor]].
Qed.

Lemma Inv_settle_promise (c : Completion) (k : Task) (w : World) :
  I w -> ok k -> I (settle_promise c k w).
Proof.
  intros Hi Hk. destruct Hi.
  assert (J : Forall (fun j => ok (snd j)) (jobs w ++ [(c, k)])).
  { apply Forall_app. split; [assumption | constructor; [exact Hk | constructor]]. }
  unfold settle_promise.
  destruct k as [|[] k']; try destruct c; constructor; simpl; assumption.
Qed.

Lemma Inv_then (k : Task) (r : Async * World) :
  I (snd r) -> ok k -> I (then_ k r).
Proof.
  destruct r as [[c|] w]; simpl; intros Hi Hk; [|assumption].
  now apply Inv_settle_promise.
Qed.

Lemma Inv_openDoors (k : Task) (w : World) :
  I w -> ok k -> I (snd (openDoors k w)).
Proof.
  intros Hi Hk. unfold openDoors.
  destruct (doors (lift w)); [assumption|].
  destruct (busy (lift w)); [assumption|]. simpl.
  apply Inv_sleep; [|apply task_ok_plain; [exact Logic.I | assumption]].
  apply Inv_on_lift_same; [assumption | repeat split].
Qed.

Lemma Inv_closeDoors (k : Task) (w : World) :
  I w -> ok k -> I (snd (closeDoors k w)).
Proof.
  intros Hi Hk. unfold closeDoors.
  destruct (doors (lift w)); [|assumption].
  destruct (busy (lift w)); [assumption|]. simpl.
  apply Inv_sleep; [|apply task_ok_plain; [exact Logic.I | assumption]].
  apply Inv_on_lift_same; [assumption | repeat split].
Qed.

Lemma Inv_updateDirectionIfIdle (w : World) :
  I w -> I (updateDirectionIfIdle w).
Proof.
  intros Hi. unfold updateDirectionIfIdle.
  destruct (negb (Direction_eqb (direction (lift w)) Idle)); [assumption|].
  destruct (negb (hasPendingRequests (lift w))).
  { apply Inv_on_lift_same; [assumption | repeat split]. }
  destruct (targets (lift w)) as [|t0 r]; [assumption|].
  set (d := newDir _ _).
  assert (H1 : I (on_lift (set_direction d) w)).
  { apply Inv_on_lift_same; [assumption | repeat split]. }
  destruct (Direction_eqb d Idle); [|assumption].
  apply Inv_then; [apply Inv_openDoors; [assumption|] |];
    apply task_ok_plain; try exact Logic.I; apply task_ok_nil.
Qed.

Lemma Inv_pressButton (f : Z) (w : World) :
  I w -> I (snd (pressButton f w)).
Proof.
  intros Hi. unfold pressButton.
  destruct (assertFloorInRange f (lift w)); [|assumption]. simpl.
  apply Inv_updateDirectionIfIdle.
  apply Inv_on_lift_same; [assumption | repeat split].
Qed.

Lemma Inv_callFrom (f : Z) (d : CallDirection) (w : World) :
  I w -> I (snd (callFrom f d w)).
Proof.
  intros Hi. unfold callFrom.
  destruct (assertFloorInRange f (lift w)); [|assumption]. simpl.
  apply Inv_updateDirectionIfIdle.
  apply Inv_on_lift_same; [assumption | repeat split].
Qed.

(** The edge test of moveOneFloor: a move goes to sleep only towards a
    floor of the range. *)
Lemma Inv_moveOneFloor_next (k : Task) (w : World) :
  I w -> ok k -> I (snd (moveOneFloor_next k w)).
Proof.
  intros Hi Hk. unfold moveOneFloor_next.
  set (next := currentFloor (lift w) + dir_value (direction (lift w))).
  destruct ((next <? minFloor (lift w)) || (next >? maxFloor (lift w))) eqn:E; simpl.
  - apply Inv_on_lift_same; [assumption | repeat split].
  - apply orb_false_iff in E as [A B].
    apply Inv_sleep.
    + apply Inv_on_lift_same; [assumption | repeat split].
    + apply task_ok_cons; [|assumption].
      intros n Hn. inversion Hn; subst n.
      rewrite <- (inv_min _ _ _ Hi), <- (inv_max _ _ _ Hi). lia.
Qed.

Lemma Inv_moveOneFloor (k : Task) (w : World) :
  I w -> ok k -> I (snd (moveOneFloor k w)).
Proof.
  intros Hi Hk. unfold moveOneFloor.
  destruct (doors (lift w)); [assumption|].
  destruct (busy (lift w)); [assumption|].
  destruct (Direction_eqb (direction (lift w)) Idle).
  - pose proof (Inv_updateDirectionIfIdle w Hi) as Hu.
    destruct (Direction_eqb _ Idle); [assumption|].
    now apply Inv_moveOneFloor_next.
  - now apply Inv_moveOneFloor_next.
Qed.

Lemma Inv_stepLoop (i m : Z) (k : Task) (w : World) :
  I w -> ok k -> I (snd (stepLoop i m k w)).
Proof.
  intros Hi Hk. unfold stepLoop.
  assert (Hs : ok (FStep i m :: k)) by (apply task_ok_plain; [exact Logic.I | assumption]).
  destruct (i <? m); [|assumption].
  destruct (doors (lift w)), (direction (lift w)); try assumption;
    simpl; (apply Inv_then; [apply Inv_moveOneFloor|]; assumption).
Qed.

Lemma Inv_openDoors_resumed (w : World) : I w -> I (openDoors_resumed w).
Proof.
  intros Hi. unfold openDoors_resumed.
  apply Inv_on_lift_same; [assumption|].
  destruct (negb (hasPendingRequests _)); repeat split.
Qed.

Lemma Inv_closeDoors_resumed (w : World) : I w -> I (closeDoors_resumed w).
Proof.
  intros Hi. unfold closeDoors_resumed.
  apply Inv_on_lift_same; [|repeat split].
  apply Inv_updateDirectionIfIdle.
  apply Inv_on_lift_same; [assumption | repeat split].
Qed.

Lemma Inv_moveOneFloor_resumed (next : Z) (k : Task) (w : World) :
  I w -> lo <= next <= hi -> ok k -> I (snd (moveOneFloor_resumed next k w)).
Proof.
  intros Hi Hn Hk. unfold moveOneFloor_resumed.
  set (w1 := on_lift _ w).
  assert (H1 : I w1).
  { apply Inv_on_lift; [assumption | apply Hi | apply Hi | exact Hn]. }
  assert (Hs : ok (FMoveOpen :: k)) by (apply task_ok_plain; [exact Logic.I | assumption]).
  destruct (shouldStopAtFloor _ _); simpl; [|assumption].
  apply Inv_then; [apply Inv_openDoors|]; assumption.
Qed.

Lemma Inv_resume (f : Frame) (c : Completion) (k : Task) (w : World) :
  I w -> ok (f :: k) -> I (snd (resume f c k w)).
Proof.
  intros Hi Hfk. pose proof (task_ok_tail _ _ Hfk) as Hk.
  destruct f; simpl.
  - now apply Inv_openDoors_resumed.
  - now apply Inv_closeDoors_resumed.
  - apply Inv_moveOneFloor_resumed; try assumption. apply Hfk. now left.
  - assumption.
  - destruct c; [now apply Inv_stepLoop | assumption].
  - assumption.
Qed.

Lemma Inv_run_job (w : World) : I w -> I (run_job w).
Proof.
  intros Hi. unfold run_job.
  destruct (jobs w) as [|[c k] js] eqn:Ej; [assumption|].
  assert (Hj : ok k /\ Forall (fun j => ok (snd j)) js).
  { pose proof (inv_jobs _ _ _ Hi) as H. rewrite Ej in H.
    inversion H; subst. split; assumption. }
  destruct Hj as [Hk Hjs].
  assert (H1 : I (with_jobs js w)).
  { destruct Hi. constructor; assumption. }
  destruct k as [|f k']; [assumption|].
  apply Inv_then; [now apply Inv_resume | now apply task_ok_tail in Hk].
Qed.

Lemma pop_earliest_Forall (P : Z * Task -> Prop) (ts : list (Z * Task)) t rest :
  pop_earliest ts = Some (t, rest) -> Forall P ts -> P t /\ Forall P rest.
Proof.
  revert t rest. induction ts as [|a r IH]; intros t rest; simpl; [discriminate|].
  intros H Hall. inversion Hall as [|? ? Ha Hr]; subst.
  destruct (pop_earliest r) as [[t' r']|].
  - destruct (IH t' r' eq_refl Hr) as [Pt Pr].
    destruct (fst a <=? fst t'); inversion H; subst; split; auto.
  - inversion H; subst. split; auto.
Qed.

Lemma Inv_fire_timer (w : World) : I w -> I (fire_timer w).
Proof.
  intros Hi. unfold fire_timer.
  destruct (pop_earliest (timers w)) as [[[due k] rest]|] eqn:E; [|assumption].
  destruct (pop_earliest_Forall _ _ _ _ E (inv_timers _ _ _ Hi)) as [Hk Hr].
  destruct Hi. constructor; simpl; try assumption.
  apply Forall_app. split; [assumption | constructor; [exact Hk | constructor]].
Qed.

Lemma Inv_idle_for (dt : Z) (w : World) : I w -> I (idle_for dt w).
Proof.
  intros Hi. unfold idle_for. destruct (_ && _); [|assumption].
  destruct Hi. constructor; assumption.
Qed.

(** Preservation: whatever happens next keeps the invariant. *)
Lemma Inv_step (w : World) (e : Event) : I w -> I (step w e).
Proof.
  intros Hi. destruct e; simpl.
  - now apply Inv_pressButton.
  - now apply Inv_callFrom.
  - apply Inv_then; [apply Inv_openDoors; [assumption|] |]; apply task_ok_nil.
  - apply Inv_then; [apply Inv_closeDoors; [assumption|] |]; apply task_ok_nil.
  - apply Inv_then; [apply Inv_moveOneFloor; [assumption|] |]; apply task_ok_nil.
  - apply Inv_then; [apply Inv_stepLoop; [assumption|] |]; apply task_ok_nil.
  - now apply Inv_run_job.
  - now apply Inv_fire_timer.
  - now apply Inv_idle_for.
Qed.

Lemma Inv_run (es : list Event) (w : World) : I w -> I (run es w).
Proof.
  revert w. induction es as [|e es IH]; intros w Hi; simpl; [assumption|].
  apply IH. now apply Inv_step.
Qed.

(** Establishment: the constructor builds a car that has it. *)
Lemma Inv_boot (s : Z) (l : Lift) : new_Lift lo hi s = inl l -> I (boot l).
Proof.
  intros H. apply new_Lift_ok in H as [-> Hs].
  constructor; simpl; auto.
Qed.
End Range.

(** The bounds of a reachable car are those given to its constructor. *)
Lemma bounds_fixed (lo hi s : Z) (l : Lift) (es : list Event) :
  new_Lift lo hi s = inl l ->
  minFloor (lift (run es (boot l))) = lo /\
  maxFloor (lift (run es (boot l))) = hi.
Proof.
  intros H.
  pose proof (Inv_run lo hi es _ (Inv_boot lo hi s l H)) as [A B _ _ _].
  split; assumption.
Qed.

(** C1 (range invariant): in every state a car built by the constructor can
    reach, by calls of pressButton, callFrom, openDoors, closeDoors,
    moveOneFloor and stepUntilStop from outside, interleaved in any way with
    the timers and promise jobs of the operations in flight, the current
    floor lies within the bounds. *)
Theorem range_invariant (w : World) :
  reachable w ->
  minFloor (lift w) <= currentFloor (lift w) <= maxFloor (lift w).
Proof.
  intros (lo & hi & s & l & es & Hn & ->).
  pose proof (Inv_run lo hi es _ (Inv_boot lo hi s l Hn)) as [A B C _ _].
  rewrite A, B. exact C.
Qed.

Lemma range_invariant_witness :
  minFloor (lift world_4_then_2) <= currentFloor (lift world_4_then_2)
    <= maxFloor (lift world_4_then_2).
Proof.
  apply range_invariant. unfold world_4_then_2.
  eexists 1, 5, 3, car_1_5_3, _. split; reflexivity.
Defined.

(* ------------------------------------------------------------------ *)
(** ** What an operation leaves alone *)

Lemma keeps_refl (l : Lift) : keeps l l.
Proof. repeat split. Qed.

Lemma keeps_trans (a b c : Lift) : keeps a b -> keeps b c -> keeps a c.
Proof.
  intros (A1 & A2 & A3 & A4) (B1 & B2 & B3 & B4).
  repeat split; congruence.
Qed.

(** The evaluation of the direction, by cases. *)
Lemma updateDirectionIfIdle_cases (w : World) :
  (direction (lift w) <> Idle /\ updateDirectionIfIdle w = w) \/
  (direction (lift w) = Idle /\ hasPendingRequests (lift w) = false /\
   updateDirectionIfIdle w = w) \/
  (direction (lift w) = Idle /\ hasPendingRequests (lift w) = true /\
   exists d, d <> Idle /\ updateDirectionIfIdle w = on_lift (set_direction d) w) \/
  (direction (lift w) = Idle /\ hasPendingRequests (lift w) = true /\
   updateDirectionIfIdle w = then_ [FVoid] (openDoors [FVoid] w)).
Proof.
  destruct (Direction_eqb (direction (lift w)) Idle) eqn:Ed.
  2:{ left. split; [now apply Direction_eqb_neq|].
      unfold updateDirectionIfIdle. now rewrite Ed. }
  apply Direction_eqb_eq in Ed. right.
  destruct (hasPendingRequests (lift w)) eqn:Hp.
  2:{ left. repeat split; try assumption. now apply updateDirectionIfIdle_nothing. }
  right.
  destruct (updateDirectionIfIdle_eval w Ed Hp) as (t0 & r & _ & Hup & Hdn & Heq).
  destruct (Z.lt_trichotomy (currentFloor (lift w))
              (nearest_target (currentFloor (lift w)) t0 (t0 :: r))) as [L | [L | L]].
  - left. repeat split; try assumption. exists Up. split; [discriminate | now apply Hup].
  - right. repeat split; try assumption. now apply Heq.
  - left. repeat split; try assumption. exists Down. split; [discriminate | now apply Hdn].
Qed.

(** A call of openDoors, by cases. *)
Lemma openDoors_cases (k : Task) (w : World) :
  (doors (lift w) = Open /\ openDoors k w = (Done Normal, w)) \/
  (doors (lift w) = Closed /\ busy (lift w) = true /\
   openDoors k w = (Done (Abrupt BusyError), w)) \/
  (doors (lift w) = Closed /\ busy (lift w) = false /\
   openDoors k w = (Pending, sleep 1000 (FOpenDoors :: k) (on_lift (set_busy true) w))).
Proof.
  unfold openDoors. destruct (doors (lift w)); [left; auto|].
  destruct (busy (lift w)); right; [left | right]; auto.
Qed.

(** The evaluation writes the direction and, through its detached
    openDoors, [busy]; nothing else of the car. *)
Lemma updateDirectionIfIdle_lift (w : World) :
  exists d b,
    lift (updateDirectionIfIdle w) = set_busy b (set_direction d (lift w)).
Proof.
  assert (Same : exists d b, lift w = set_busy b (set_direction d (lift w))).
  { exists (direction (lift w)), (busy (lift w)). destruct (lift w); reflexivity. }
  destruct (updateDirectionIfIdle_cases w)
    as [(_ & ->) | [(_ & _ & ->) | [(_ & _ & d & _ & ->) | (Hi & _ & ->)]]];
    try exact Same.
  - exists d, (busy (lift w)). simpl. destruct (lift w); reflexivity.
  - destruct (openDoors_cases [FVoid] w)
      as [(_ & ->) | [(_ & _ & ->) | (_ & _ & ->)]]; unfold then_;
      rewrite ?lift_settle_promise; try exact Same.
    exists (direction (lift w)), true. simpl. destruct (lift w); reflexivity.
Qed.

Lemma keeps_updateDirectionIfIdle (w : World) :
  keeps (lift w) (lift (updateDirectionIfIdle w)) /\
  currentFloor (lift (updateDirectionIfIdle w)) = currentFloor (lift w) /\
  doors (lift (updateDirectionIfIdle w)) = doors (lift w).
Proof.
  destruct (updateDirectionIfIdle_lift w) as (d & b & ->). repeat split.
Qed.

Lemma keeps_then (k : Task) (r : Async * World) (l : Lift) :
  keeps l (lift (snd r)) -> keeps l (lift (then_ k r)).
Proof.
  destruct r as [[c|] w]; simpl; [now rewrite lift_settle_promise | auto].
Qed.

Lemma keeps_openDoors (k : Task) (w : World) :
  keeps (lift w) (lift (snd (openDoors k w))).
Proof.
  destruct (openDoors_cases k w) as [(_ & ->) | [(_ & _ & ->) | (_ & _ & ->)]];
    repeat split.
Qed.

Lemma keeps_closeDoors (k : Task) (w : World) :
  keeps (lift w) (lift (snd (closeDoors k w))).
Proof.
  unfold closeDoors. destruct (doors (lift w)); [|repeat split].
  destruct (busy (lift w)); repeat split.
Qed.

Lemma keeps_moveOneFloor_next (k : Task) (w : World) :
  keeps (lift w) (lift (snd (moveOneFloor_next k w))).
Proof.
  unfold moveOneFloor_next. destruct (_ || _); repeat split.
Qed.

Lemma keeps_moveOneFloor (k : Task) (w : World) :
  keeps (lift w) (lift (snd (moveOneFloor k w))).
Proof.
  unfold moveOneFloor.
  destruct (doors (lift w)); [apply keeps_refl|].
  destruct (busy (lift w)); [apply keeps_refl|].
  destruct (Direction_eqb (direction (lift w)) Idle); [|apply keeps_moveOneFloor_next].
  pose proof (proj1 (keeps_updateDirectionIfIdle w)) as Hu.
  destruct (Direction_eqb _ Idle); [exact Hu|].
  eapply keeps_trans; [exact Hu | apply keeps_moveOneFloor_next].
Qed.

Lemma keeps_stepLoop (i m : Z) (k : Task) (w : World) :
  keeps (lift w) (lift (snd (stepLoop i m k w))).
Proof.
  unfold stepLoop. destruct (i <? m); [|apply keeps_refl].
  destruct (doors (lift w)), (direction (lift w)); try apply keeps_refl;
    simpl; apply keeps_then, keeps_moveOneFloor.
Qed.

Lemma keeps_closeDoors_resumed (w : World) :
  keeps (lift w) (lift (closeDoors_resumed w)).
Proof.
  unfold closeDoors_resumed.
  destruct (updateDirectionIfIdle_lift (on_lift (set_doors Closed) w)) as (d & b & E).
  simpl. rewrite E. repeat split.
Qed.

Lemma keeps_moveOneFloor_resumed (next : Z) (k : Task) (w : World) :
  keeps (lift w) (lift (snd (moveOneFloor_resumed next k w))).
Proof.
  unfold moveOneFloor_resumed.
  set (w1 := on_lift _ w).
  assert (H1 : keeps (lift w) (lift w1)) by (repeat split).
  destruct (shouldStopAtFloor _ _); simpl; [|exact H1].
  apply keeps_then. eapply keeps_trans; [exact H1 | apply keeps_openDoors].
Qed.

(* ------------------------------------------------------------------ *)
(** ** Construction and intake *)

(** X1 (constructor): a car is built exactly for bounds in order and a start
    floor within them, and is then idle at the start floor, doors closed,
    nothing pending, not busy; bounds out of order are reported before a
    start floor out of range. *)
Theorem constructor_contract (lo hi s : Z) :
  (lo <= hi -> lo <= s <= hi ->
   new_Lift lo hi s = inl (mkLift lo hi s Idle Closed [] [] false)) /\
  (hi < lo -> new_Lift lo hi s = inr (ConstructionError false)) /\
  (lo <= hi -> s < lo \/ hi < s ->
   new_Lift lo hi s = inr (ConstructionError true)) /\
  (forall l, new_Lift lo hi s = inl l -> lo <= hi /\ lo <= s <= hi).
Proof.
  unfold new_Lift. repeat split.
  - intros H1 H2.
    replace (lo >? hi) with false by (symmetry; lia).
    replace ((s <? lo) || (s >? hi)) with false; [reflexivity|].
    symmetry. apply orb_false_iff. lia.
  - intros H. replace (lo >? hi) with true by (symmetry; lia). reflexivity.
  - intros H1 H2.
    replace (lo >? hi) with false by (symmetry; lia).
    replace ((s <? lo) || (s >? hi)) with true; [reflexivity|].
    symmetry. apply orb_true_iff. lia.
  - destruct (lo >? hi) eqn:E; [discriminate | lia].
  - destruct (lo >? hi); [discriminate|].
    destruct ((s <? lo) || (s >? hi)) eqn:E; [discriminate|].
    apply orb_false_iff in E. lia.
  - destruct (lo >? hi); [discriminate|].
    destruct ((s <? lo) || (s >? hi)) eqn:E; [discriminate|].
    apply orb_false_iff in E. lia.
Qed.

Lemma constructor_contract_witness :
  new_Lift 1 5 3 = inl car_1_5_3 /\
  new_Lift 5 1 9 = inr (ConstructionError false) /\
  new_Lift 1 5 9 = inr (ConstructionError true).
Proof.
  destruct (constructor_contract 1 5 3) as (A & _).
  destruct (constructor_contract 5 1 9) as (_ & B & _).
  destruct (constructor_contract 1 5 9) as (_ & _ & C & _).
  split; [apply A; lia | split; [apply B; lia | apply C; lia]].
Defined.

Lemma assertFloorInRange_spec (f : Z) (l : Lift) :
  (assertFloorInRange f l = Normal <-> minFloor l <= f <= maxFloor l) /\
  (assertFloorInRange f l = Abrupt OutOfRangeError <->
   f < minFloor l \/ maxFloor l < f).
Proof.
  unfold assertFloorInRange.
  destruct ((f <? minFloor l) || (f >? maxFloor l)) eqn:E.
  - apply orb_true_iff in E. split; split; try discriminate; try reflexivity; lia.
  - apply orb_false_iff in E. split; split; try discriminate; try reflexivity; lia.
Qed.

(** X2 (intake): pressButton and callFrom succeed exactly for a floor of the
    range.  A successful pressButton adds the floor to the panel set, at the
    end if it is new and not at all if it is pending already; a successful
    callFrom appends one call, duplicates included.  Neither touches the
    other store, the floor, the doors or the bounds. *)
Theorem intake (w : World) (f : Z) (d : CallDirection) :
  (fst (pressButton f w) = Normal <-> minFloor (lift w) <= f <= maxFloor (lift w)) /\
  (fst (callFrom f d w) = Normal <-> minFloor (lift w) <= f <= maxFloor (lift w)) /\
  (minFloor (lift w) <= f <= maxFloor (lift w) ->
   (In f (panelRequests (lift w)) ->
    panelRequests (lift (snd (pressButton f w))) = panelRequests (lift w)) /\
   (~ In f (panelRequests (lift w)) ->
    panelRequests (lift (snd (pressButton f w))) = panelRequests (lift w) ++ [f]) /\
   calls (lift (snd (pressButton f w))) = calls (lift w) /\
   currentFloor (lift (snd (pressButton f w))) = currentFloor (lift w) /\
   doors (lift (snd (pressButton f w))) = doors (lift w) /\
   calls (lift (snd (callFrom f d w))) = calls (lift w) ++ [mkCall f d] /\
   panelRequests (lift (snd (callFrom f d w))) = panelRequests (lift w) /\
   currentFloor (lift (snd (callFrom f d w))) = currentFloor (lift w) /\
   doors (lift (snd (callFrom f d w))) = doors (lift w)).
Proof.
  destruct (assertFloorInRange_spec f (lift w)) as [[A1 A2] _].
  unfold pressButton, callFrom.
  destruct (assertFloorInRange f (lift w)) eqn:E; simpl fst.
  2:{ split; [|split]; try (split; [discriminate | intros H; apply A2 in H; discriminate]).
      intros H. apply A2 in H. discriminate. }
  pose proof (A1 eq_refl) as Hr.
  split; [tauto|]. split; [tauto|]. intros _. simpl snd.
  set (wp := on_lift (fun l => set_panelRequests (JsSet.add f (panelRequests l)) l) w).
  set (wc := on_lift (fun l => set_calls (calls l ++ [mkCall f d]) l) w).
  destruct (keeps_updateDirectionIfIdle wp) as ((_ & _ & P1 & P2) & P3 & P4).
  destruct (keeps_updateDirectionIfIdle wc) as ((_ & _ & C1 & C2) & C3 & C4).
  rewrite P1, P2, P3, P4, C1, C2, C3, C4. simpl.
  unfold JsSet.add.
  split.
  { intros Hin. apply has_In in Hin. now rewrite Hin. }
  split.
  { intros Hn. destruct (JsSet.has f (panelRequests (lift w))) eqn:Eh; [|reflexivity].
    apply has_In in Eh. tauto. }
  repeat split.
Qed.

Lemma intake_witness :
  panelRequests (lift (snd (pressButton 4 (snd (pressButton 4 (boot car_1_5_3)))))) = [4] /\
  calls (lift (snd (callFrom 2 CallUp (snd (callFrom 2 CallUp (boot car_1_5_3))))))
  = [mkCall 2 CallUp; mkCall 2 CallUp] /\
  (currentFloor (lift (snd (pressButton 4 (boot car_1_5_3)))) = 3).
Proof.
  split; [reflexivity | split; [reflexivity|]].
  destruct (intake (boot car_1_5_3) 4 CallUp) as (_ & _ & H).
  destruct H as (_ & _ & _ & Hc & _); [simpl; lia|]. exact Hc.
Defined.

(* ------------------------------------------------------------------ *)
(** ** The request stores *)

Lemma stores_ok_keeps (l l' : Lift) : stores_ok l -> keeps l l' -> stores_ok l'.
Proof.
  intros (A & B & C) (K1 & K2 & K3 & K4).
  unfold stores_ok. now rewrite K1, K2, K3, K4.
Qed.

Lemma stores_ok_add (f : Z) (l : Lift) :
  stores_ok l -> minFloor l <= f <= maxFloor l ->
  stores_ok (set_panelRequests (JsSet.add f (panelRequests l)) l).
Proof.
  intros (A & B & C) Hf. unfold stores_ok, JsSet.add; simpl.
  destruct (JsSet.has f (panelRequests l)) eqn:E; [auto|].
  assert (Hn : ~ In f (panelRequests l)).
  { intros H. apply has_In in H. congruence. }
  repeat split; [|apply Forall_app; split; [assumption | repeat constructor; lia] | assumption].
  apply NoDup_app; [assumption | repeat constructor; intros [] | ].
  intros x Hx [<- | []]. exact (Hn Hx).
Qed.

Lemma stores_ok_push (c : Call) (l : Lift) :
  stores_ok l -> minFloor l <= floor c <= maxFloor l ->
  stores_ok (set_calls (calls l ++ [c]) l).
Proof.
  intros (A & B & C) Hf. unfold stores_ok; simpl.
  repeat split; try assumption.
  apply Forall_app; split; [assumption | repeat constructor; lia].
Qed.

Lemma stores_ok_fulfill (l : Lift) :
  stores_ok l -> stores_ok (fulfillAtCurrentFloor l).
Proof.
  intros (A & B & C). unfold stores_ok, fulfillAtCurrentFloor, JsSet.delete; simpl.
  repeat split.
  - now apply NoDup_filter.
  - rewrite Forall_forall in *. intros x Hx. apply filter_In in Hx. now apply B.
  - rewrite Forall_forall in *. intros x Hx. apply filter_In in Hx. now apply C.
Qed.

Lemma stores_ok_openDoors_resumed (w : World) :
  stores_ok (lift w) -> stores_ok (lift (openDoors_resumed w)).
Proof.
  intros H. unfold openDoors_resumed. simpl.
  pose proof (stores_ok_fulfill (set_doors Open (lift w))) as F.
  assert (H1 : stores_ok (set_doors Open (lift w))).
  { eapply stores_ok_keeps; [exact H | repeat split]. }
  specialize (F H1).
  eapply stores_ok_keeps; [exact F|].
  destruct (negb (hasPendingRequests _)); repeat split.
Qed.

Lemma stores_ok_step (w : World) (e : Event) :
  stores_ok (lift w) -> stores_ok (lift (step w e)).
Proof.
  intros H. destruct e; simpl.
  - unfold pressButton.
    destruct (assertFloorInRange_spec f (lift w)) as [[A _] _].
    destruct (assertFloorInRange f (lift w)); [|exact H]. simpl.
    eapply stores_ok_keeps; [|apply keeps_updateDirectionIfIdle].
    simpl. now apply stores_ok_add; [|apply A].
  - unfold callFrom.
    destruct (assertFloorInRange_spec f (lift w)) as [[A _] _].
    destruct (assertFloorInRange f (lift w)); [|exact H]. simpl.
    eapply stores_ok_keeps; [|apply keeps_updateDirectionIfIdle].
    simpl. now apply stores_ok_push; [|apply A].
  - eapply stores_ok_keeps; [exact H | apply keeps_then, keeps_openDoors].
  - eapply stores_ok_keeps; [exact H | apply keeps_then, keeps_closeDoors].
  - eapply stores_ok_keeps; [exact H | apply keeps_then, keeps_moveOneFloor].
  - eapply stores_ok_keeps; [exact H | apply keeps_then, keeps_stepLoop].
  - unfold run_job. destruct (jobs w) as [|[c k] js]; [exact H|].
    destruct k as [|f k']; [exact H|].
    assert (G : stores_ok (lift (snd (resume f c k' (with_jobs js w))))).
    { destruct f; cbn [resume snd].
      - now apply stores_ok_openDoors_resumed.
      - eapply stores_ok_keeps;
          [exact H | apply (keeps_closeDoors_resumed (with_jobs js w))].
      - eapply stores_ok_keeps; [exact H | apply (keeps_moveOneFloor_resumed next k' (with_jobs js w))].
      - exact H.
      - destruct c; [|exact H].
        eapply stores_ok_keeps; [exact H | apply (keeps_stepLoop _ _ k' (with_jobs js w))].
      - exact H. }
    destruct (resume f c k' (with_jobs js w)) as [[c'|] w']; simpl in *;
      [now rewrite lift_settle_promise | exact G].
  - unfold fire_timer. destruct (pop_earliest (timers w)) as [[[due k] rest]|]; exact H.
  - unfold idle_for. destruct (_ && _); exact H.
Qed.

Lemma stores_ok_reachable (w : World) : reachable w -> stores_ok (lift w).
Proof.
  intros (lo & hi & s & l & es & Hn & ->).
  assert (H0 : stores_ok (lift (boot l))).
  { apply new_Lift_ok in Hn as [-> _].
    unfold stores_ok; simpl. repeat split; constructor. }
  revert H0. generalize (boot l). unfold run.
  induction es as [|e es IH]; intros w0 H0; simpl; [exact H0|].
  apply IH. now apply stores_ok_step.
Qed.

(** X3 (stores): in every reachable state each pending panel request and
    each pending call is for a floor within the bounds, and no floor is in
    the panel set twice. *)
Theorem stores_in_range (w : World) :
  reachable w ->
  NoDup (panelRequests (lift w)) /\
  (forall f, In f (pendingPanelRequests (lift w)) ->
             minFloor (lift w) <= f <= maxFloor (lift w)) /\
  (forall c, In c (pendingCalls (lift w)) ->
             minFloor (lift w) <= floor c <= maxFloor (lift w)).
Proof.
  intros Hr. pose proof (stores_ok_reachable w Hr) as H.
  destruct H as (A & B & C). split; [exact A|]. split.
  - intros f Hf. apply (proj1 (sort_asc_In _ _)) in Hf.
    rewrite Forall_forall in B. exact (B f Hf).
  - intros c Hc. rewrite Forall_forall in C. exact (C c Hc).
Qed.

Lemma stores_in_range_witness : NoDup (panelRequests (lift world_4_then_2)).
Proof. exact (proj1 (stores_in_range world_4_then_2 world_4_then_2_reachable)). Defined.

(* ------------------------------------------------------------------ *)
(** ** The getters *)

Lemma insert_asc_perm (x : Z) (l : list Z) : Permutation (insert_asc x l) (x :: l).
Proof.
  induction l as [|y r IH]; simpl; [reflexivity|].
  destruct (x <? y); [reflexivity|].
  rewrite IH. apply perm_swap.
Qed.

Lemma sort_asc_perm (l : list Z) : Permutation (sort_asc l) l.
Proof.
  unfold sort_asc.
  enough (G : forall acc, Permutation (fold_left (fun a x => insert_asc x a) l acc)
                                      (acc ++ l)).
  { apply (G []). }
  induction l as [|x r IH]; intros acc; simpl.
  - now rewrite app_nil_r.
  - rewrite IH, insert_asc_perm. apply Permutation_middle.
Qed.

Lemma Sorted_le_NoDup_lt (l : list Z) :
  Sorted Z.le l -> NoDup l -> Sorted Z.lt l.
Proof.
  induction 1 as [|a l Hs IH Hh]; intros Hn; [constructor|].
  inversion Hn as [|? ? Ha Hl]; subst.
  constructor; [now apply IH|].
  destruct Hh as [|b l' Hab]; constructor.
  assert (a <> b) by (intros ->; apply Ha; now left). lia.
Qed.



(* ------------------------------------------------------------------ *)
(** ** One operation at a time *)

(** X5 (lock): in every reachable state at most one timer is pending, and
    [busy] is set exactly while one timed operation is asleep or has just
    been woken; while that operation is a door-open or a move the doors are
    closed, while it is a door-close they are open. *)
Theorem one_operation_in_flight (w : World) :
  reachable w ->
  (length (timers w) <= 1)%nat /\
  (busy (lift w) = false -> timers w = [] /\ flight w = []) /\
  (busy (lift w) = true ->
   exists f k, flight w = [f :: k] /\ is_sleeper f = true /\
               door_before f (doors (lift w))).
Proof.
  intros Hr. destruct (Mutex_reachable w Hr) as [S B F | f k S B F D].
  - destruct (flight_nil w F) as [T _]. rewrite T.
    split; [simpl; lia|]. split; [auto | congruence].
  - split; [|split; [congruence|]].
    + unfold flight in F. apply (f_equal (@length Task)) in F.
      rewrite length_app, length_map in F. simpl in F. lia.
    + intros _. exists f, k. split; [exact F|]. split; [|exact D].
      destruct f; simpl in D; try reflexivity; destruct D.
Qed.

Lemma one_operation_in_flight_witness :
  busy (lift world_closing) = true /\
  exists f k, flight world_closing = [f :: k] /\ is_sleeper f = true /\
              door_before f (doors (lift world_closing)).
Proof.
  split; [reflexivity|].
  apply (one_operation_in_flight world_closing);
    [apply (run_reachable 1 5 3); reflexivity | reflexivity].
Defined.

(* ------------------------------------------------------------------ *)
(** ** Nothing pending *)

Lemma hasPending_false (l : Lift) :
  hasPendingRequests l = false <-> panelRequests l = [] /\ calls l = [].
Proof.
  unfold hasPendingRequests.
  destruct (panelRequests l), (calls l); simpl; split;
    try discriminate; try (intros [? ?]; discriminate); auto.
Qed.

Lemma idle_if_empty_same (l l' : Lift) :
  idle_if_empty l -> keeps l l' -> direction l' = direction l -> idle_if_empty l'.
Proof.
  intros H (_ & _ & P & C) D. unfold idle_if_empty, hasPendingRequests in *.
  now rewrite P, C, D.
Qed.

Lemma idle_if_empty_pending (l : Lift) :
  hasPendingRequests l = true -> idle_if_empty l.
Proof. intros H H'. congruence. Qed.

Lemma hasPending_keeps (l l' : Lift) :
  keeps l l' -> hasPendingRequests l' = hasPendingRequests l.
Proof. intros (_ & _ & P & C). unfold hasPendingRequests. now rewrite P, C. Qed.

Lemma idle_if_empty_openDoors (k : Task) (w : World) :
  idle_if_empty (lift w) -> idle_if_empty (lift (snd (openDoors k w))).
Proof.
  intros H.
  destruct (openDoors_cases k w) as [(_ & ->) | [(_ & _ & ->) | (_ & _ & ->)]];
    exact H.
Qed.

Lemma idle_if_empty_then (k : Task) (r : Async * World) :
  idle_if_empty (lift (snd r)) -> idle_if_empty (lift (then_ k r)).
Proof.
  destruct r as [[c|] w]; simpl; [now rewrite lift_settle_promise | auto].
Qed.

Lemma idle_if_empty_updateDirectionIfIdle (w : World) :
  idle_if_empty (lift w) -> idle_if_empty (lift (updateDirectionIfIdle w)).
Proof.
  intros H.
  destruct (updateDirectionIfIdle_cases w)
    as [(_ & ->) | [(_ & _ & ->) | [(_ & Hp & d & _ & ->) | (_ & _ & ->)]]];
    try exact H.
  - apply idle_if_empty_pending. exact Hp.
  - now apply idle_if_empty_then, idle_if_empty_openDoors.
Qed.

Lemma idle_if_empty_moveOneFloor_next (k : Task) (w : World) :
  idle_if_empty (lift w) -> direction (lift w) <> Idle ->
  idle_if_empty (lift (snd (moveOneFloor_next k w))).
Proof.
  intros H Hd. apply idle_if_empty_pending.
  rewrite (hasPending_keeps _ _ (keeps_moveOneFloor_next k w)).
  destruct (hasPendingRequests (lift w)) eqn:E; [reflexivity|].
  exfalso. apply Hd. now apply H.
Qed.

Lemma idle_if_empty_moveOneFloor (k : Task) (w : World) :
  idle_if_empty (lift w) -> idle_if_empty (lift (snd (moveOneFloor k w))).
Proof.
  intros H. unfold moveOneFloor.
  destruct (doors (lift w)); [exact H|].
  destruct (busy (lift w)); [exact H|].
  destruct (Direction_eqb (direction (lift w)) Idle) eqn:Ed.
  - pose proof (idle_if_empty_updateDirectionIfIdle w H) as Hu.
    destruct (Direction_eqb (direction (lift (updateDirectionIfIdle w))) Idle)
      eqn:Eu; [exact Hu|].
    apply idle_if_empty_moveOneFloor_next; [exact Hu | now apply Direction_eqb_neq].
  - apply idle_if_empty_moveOneFloor_next; [exact H | now apply Direction_eqb_neq].
Qed.

Lemma idle_if_empty_stepLoop (i m : Z) (k : Task) (w : World) :
  idle_if_empty (lift w) -> idle_if_empty (lift (snd (stepLoop i m k w))).
Proof.
  intros H. unfold stepLoop. destruct (i <? m); [|exact H].
  destruct (doors (lift w)), (direction (lift w)); try exact H;
    simpl; now apply idle_if_empty_then, idle_if_empty_moveOneFloor.
Qed.

Lemma idle_if_empty_resume (f : Frame) (c : Completion) (k : Task) (w : World) :
  idle_if_empty (lift w) -> idle_if_empty (lift (snd (resume f c k w))).
Proof.
  intros H. destruct f; cbn [resume snd]; try exact H.
  - unfold openDoors_resumed. simpl.
    destruct (hasPendingRequests _) eqn:E; simpl.
    + apply idle_if_empty_pending. exact E.
    + intros _. reflexivity.
  - unfold closeDoors_resumed.
    set (w1 := on_lift (set_doors Closed) w).
    assert (H1 : idle_if_empty (lift w1)).
    { eapply idle_if_empty_same; [exact H | repeat split | reflexivity]. }
    apply idle_if_empty_updateDirectionIfIdle in H1.
    eapply idle_if_empty_same; [exact H1 | repeat split | reflexivity].
  - unfold moveOneFloor_resumed.
    set (w1 := on_lift _ w).
    assert (H1 : idle_if_empty (lift w1)).
    { eapply idle_if_empty_same; [exact H | repeat split | reflexivity]. }
    destruct (shouldStopAtFloor _ _); simpl; [|exact H1].
    now apply idle_if_empty_then, idle_if_empty_openDoors.
  - destruct c; [now apply idle_if_empty_stepLoop | exact H].
Qed.

Lemma idle_if_empty_step (w : World) (e : Event) :
  idle_if_empty (lift w) -> idle_if_empty (lift (step w e)).
Proof.
  intros H. destruct e; simpl.
  - unfold pressButton. destruct (assertFloorInRange f (lift w)); [|exact H]. simpl.
    apply idle_if_empty_updateDirectionIfIdle, idle_if_empty_pending.
    unfold hasPendingRequests, JsSet.add; simpl.
    destruct (JsSet.has f (panelRequests (lift w))) eqn:E.
    + apply has_In in E. destruct (panelRequests (lift w)); [destruct E | reflexivity].
    + rewrite length_app. simpl.
      apply orb_true_iff. left. apply Z.ltb_lt. lia.
  - unfold callFrom. destruct (assertFloorInRange f (lift w)); [|exact H]. simpl.
    apply idle_if_empty_updateDirectionIfIdle, idle_if_empty_pending.
    unfold hasPendingRequests; simpl. rewrite length_app. simpl.
    apply orb_true_iff. right. apply Z.ltb_lt. lia.
  - now apply idle_if_empty_then, idle_if_empty_openDoors.
  - apply idle_if_empty_then. unfold closeDoors.
    destruct (doors (lift w)); [|exact H].
    destruct (busy (lift w)); [exact H|].
    eapply idle_if_empty_same; [exact H | repeat split | reflexivity].
  - now apply idle_if_empty_then, idle_if_empty_moveOneFloor.
  - now apply idle_if_empty_then, idle_if_empty_stepLoop.
  - unfold run_job. destruct (jobs w) as [|[c k] js]; [exact H|].
    destruct k as [|f k']; [exact H|].
    apply idle_if_empty_then. now apply (idle_if_empty_resume f c k' (with_jobs js w)).
  - unfold fire_timer. destruct (pop_earliest (timers w)) as [[[due k] rest]|]; exact H.
  - unfold idle_for. destruct (_ && _); exact H.
Qed.

Lemma idle_if_empty_reachable (w : World) : reachable w -> idle_if_empty (lift w).
Proof.
  intros (lo & hi & s & l & es & Hn & ->).
  assert (H0 : idle_if_empty (lift (boot l))).
  { apply new_Lift_ok in Hn as [-> _]. intros _. reflexivity. }
  revert H0. generalize (boot l). unfold run.
  induction es as [|e es IH]; intros w0 H0; simpl; [exact H0|].
  apply IH. now apply idle_if_empty_step.
Qed.

(** X6 (idle terminal): in every reachable state with no panel request and
    no call pending the direction is Idle; stepUntilStop then returns at
    once and, with doors closed and the car not busy, moveOneFloor fails
    with NoDestinationError; neither changes anything, so the car does not
    move. *)
Theorem idle_terminal (w : World) (m : Z) (k : Task) :
  reachable w ->
  pendingPanelRequests (lift w) = [] ->
  pendingCalls (lift w) = [] ->
  direction (lift w) = Idle /\
  stepUntilStop m k w = (Done Normal, w) /\
  (doors (lift w) = Closed -> busy (lift w) = false ->
   moveOneFloor k w = (Done (Abrupt NoDestinationError), w)).
Proof.
  intros Hr Hp Hc.
  assert (He : hasPendingRequests (lift w) = false).
  { apply hasPending_false. split; [now apply sort_asc_nil | exact Hc]. }
  pose proof (idle_if_empty_reachable w Hr He) as Hd.
  split; [exact Hd|]. split.
  - unfold stepUntilStop, stepLoop. rewrite Hd.
    destruct (0 <? m); [destruct (doors (lift w))|]; reflexivity.
  - intros Hdo Hb. unfold moveOneFloor. rewrite Hdo, Hb, Hd. simpl Direction_eqb.
    cbv iota. rewrite (updateDirectionIfIdle_nothing w Hd He), Hd. reflexivity.
Qed.

Lemma idle_terminal_witness :
  stepUntilStop 1000 [] (boot car_1_5_3) = (Done Normal, boot car_1_5_3) /\
  moveOneFloor [] (boot car_1_5_3)
  = (Done (Abrupt NoDestinationError), boot car_1_5_3).
Proof.
  destruct (idle_terminal (boot car_1_5_3) 1000 [])
    as (_ & A & B); try reflexivity.
  - apply (run_reachable 1 5 3 car_1_5_3 []). reflexivity.
  - split; [exact A | apply B; reflexivity].
Defined.

(* ------------------------------------------------------------------ *)
(** ** Closing the doors *)

(** A candidate at the current floor is the nearest one. *)
Lemma nearest_target_here (cur t0 : Z) (r : list Z) :
  In cur (t0 :: r) -> nearest_target cur t0 (t0 :: r) = cur.
Proof.
  intros Hin.
  destruct (nearest_target_first cur t0 r) as (i & _ & Hall & _).
  apply In_nth_error in Hin as (j & Hj).
  specialize (Hall j cur Hj). lia.
Qed.

Lemma updateDirectionIfIdle_here (w : World) :
  direction (lift w) = Idle ->
  In (currentFloor (lift w)) (targets (lift w)) ->
  updateDirectionIfIdle w = then_ [FVoid] (openDoors [FVoid] w).
Proof.
  intros Hd Hin.
  assert (Hp : hasPendingRequests (lift w) = true).
  { destruct (hasPendingRequests (lift w)) eqn:E; [reflexivity|].
    apply hasPending_false in E as [P C]. unfold targets in Hin.
    rewrite P, C in Hin. destruct Hin. }
  destruct (updateDirectionIfIdle_eval w Hd Hp) as (t0 & r & Et & _ & _ & Heq).
  apply Heq. rewrite Et in Hin. now apply nearest_target_here.
Qed.

(** While [busy] is set the evaluation starts nothing. *)
Lemma updateDirectionIfIdle_busy (w : World) :
  busy (lift w) = true ->
  timers (updateDirectionIfIdle w) = timers w /\
  jobs (updateDirectionIfIdle w) = jobs w /\
  busy (lift (updateDirectionIfIdle w)) = true.
Proof.
  intros Hb.
  destruct (updateDirectionIfIdle_cases w)
    as [(_ & ->) | [(_ & _ & ->) | [(_ & _ & d & _ & ->) | (_ & _ & ->)]]]; auto.
  destruct (openDoors_locked [FVoid] w Hb) as (c & ->).
  simpl. destruct c; auto.
Qed.

(** X7 (closing): closeDoors on its full path (doors open, not busy) parks
    on the door timer and, gone on from there, leaves the doors closed, the
    car not busy, and the floor and both request stores as they were.  It
    starts no other operation: a direction other than Idle is kept, and when
    the car is idle with a request or call for the current floor, the
    openDoors of the direction evaluation is rejected with BusyError,
    because closeDoors still holds [busy], and dropped; the car stays idle
    with its doors closed and the request pending. *)
Theorem closeDoors_completes (w : World) (k : Task) :
  doors (lift w) = Open ->
  busy (lift w) = false ->
  let started := snd (closeDoors k w) in
  let done := snd (resume FCloseDoors Normal k started) in
  closeDoors k w
    = (Pending, sleep 1000 (FCloseDoors :: k) (on_lift (set_busy true) w)) /\
  fst (resume FCloseDoors Normal k started) = Done Normal /\
  doors (lift done) = Closed /\
  busy (lift done) = false /\
  currentFloor (lift done) = currentFloor (lift w) /\
  panelRequests (lift done) = panelRequests (lift w) /\
  calls (lift done) = calls (lift w) /\
  timers done = timers started /\
  (direction (lift w) <> Idle ->
   direction (lift done) = direction (lift w) /\ unhandled done = unhandled w) /\
  (direction (lift w) = Idle ->
   In (currentFloor (lift w)) (targets (lift w)) ->
   direction (lift done) = Idle /\ unhandled done = unhandled w ++ [BusyError]).
Proof.
  intros Hd Hb started done.
  assert (Es : closeDoors k w
               = (Pending, sleep 1000 (FCloseDoors :: k) (on_lift (set_busy true) w))).
  { unfold closeDoors. now rewrite Hd, Hb. }
  split; [exact Es|]. split; [reflexivity|].
  subst started done. rewrite Es. cbn [snd resume].
  set (w0 := sleep 1000 (FCloseDoors :: k) (on_lift (set_busy true) w)).
  set (w1 := on_lift (set_doors Closed) w0).
  unfold closeDoors_resumed. fold w1.
  destruct (updateDirectionIfIdle_busy w1 eq_refl) as (Ht & _ & _).
  destruct (keeps_updateDirectionIfIdle w1) as ((_ & _ & Kp & Kc) & Kf & Kd).
  simpl. rewrite Kd, Kf, Kp, Kc, Ht.
  repeat split.
  - destruct (updateDirectionIfIdle_cases w1) as [(_ & ->) | [(Hi & _) | [(Hi & _) | (Hi & _)]]];
      [reflexivity | | |]; simpl in Hi; congruence.
  - destruct (updateDirectionIfIdle_cases w1) as [(_ & ->) | [(Hi & _) | [(Hi & _) | (Hi & _)]]];
      [reflexivity | | |]; simpl in Hi; congruence.
  - rewrite (updateDirectionIfIdle_here w1) by assumption. exact H.
  - rewrite (updateDirectionIfIdle_here w1) by assumption. reflexivity.
Qed.

Lemma closeDoors_completes_witness :
  lift (snd (resume FCloseDoors Normal []
               (snd (closeDoors [] (run [EPressButton 3; ETimer; EJob; EPressButton 3]
                                        (boot car_1_5_3))))))
  = lift world_parked_on_request /\
  panelRequests (lift world_parked_on_request) = [3] /\
  doors (lift world_parked_on_request) = Closed.
Proof.
  split; [reflexivity|].
  destruct (closeDoors_completes
              (run [EPressButton 3; ETimer; EJob; EPressButton 3] (boot car_1_5_3)) []
              eq_refl eq_refl) as (_ & _ & Hd & _ & _ & Hp & _).
  split; [exact Hp | exact Hd].
Defined.

(* ------------------------------------------------------------------ *)
(** ** A request for the current floor *)

Lemma settle_timer_then_job (due : Z) (k : Task) (w : World) :
  timers w = [(due, k)] -> jobs w = [] ->
  settle 2 w = run_job (fire_timer w) /\
  fire_timer w = mkWorld (lift w) (Z.max (now w) due) [] [(Normal, k)]
                         (delivered w) (unhandled w).
Proof.
  intros Ht Hj.
  assert (Ef : fire_timer w = mkWorld (lift w) (Z.max (now w) due) [] [(Normal, k)]
                                      (delivered w) (unhandled w)).
  { unfold fire_timer. rewrite Ht, Hj. reflexivity. }
  split; [|exact Ef].
  simpl. rewrite Hj, Ht. rewrite Ef. simpl. reflexivity.
Qed.

(** X8 (already there): on an idle car at rest, pressButton for the current
    floor returns with the doors still closed and a detached door-open in
    flight; left to run, the loop opens the doors one door time later, at
    the same floor, and the floor is then pending in neither store, the car
    idle and not busy. *)
Theorem press_current_floor (w : World) :
  at_rest w ->
  direction (lift w) = Idle ->
  minFloor (lift w) <= currentFloor (lift w) <= maxFloor (lift w) ->
  let here := currentFloor (lift w) in
  let pressed := snd (pressButton here w) in
  let final := settle 2 pressed in
  fst (pressButton here w) = Normal /\
  doors (lift pressed) = Closed /\
  busy (lift pressed) = true /\
  timers pressed = [(now w + 1000, [FOpenDoors; FVoid])] /\
  quiescent final = true /\
  now final = now w + 1000 /\
  doors (lift final) = Open /\
  currentFloor (lift final) = here /\
  busy (lift final) = false /\
  direction (lift final) = Idle /\
  ~ In here (pendingPanelRequests (lift final)) /\
  (forall c, In c (pendingCalls (lift final)) -> floor c <> here) /\
  unhandled final = unhandled w.
Proof.
  intros (Ht & Hj & Hb & Hd) Hi Hr here pressed final.
  destruct (assertFloorInRange_spec here (lift w)) as [[_ A] _].
  assert (Ea : assertFloorInRange here (lift w) = Normal) by (apply A; exact Hr).
  set (w1 := on_lift (fun l => set_panelRequests (JsSet.add here (panelRequests l)) l) w).
  assert (Ep : pressButton here w = (Normal, updateDirectionIfIdle w1)).
  { unfold pressButton. now rewrite Ea. }
  assert (Hin : In (currentFloor (lift w1)) (targets (lift w1))).
  { unfold targets. apply in_or_app. left. simpl. unfold JsSet.add.
    destruct (JsSet.has here (panelRequests (lift w))) eqn:E.
    - now apply has_In.
    - apply in_or_app. right. now left. }
  assert (Eu : updateDirectionIfIdle w1
               = sleep 1000 [FOpenDoors; FVoid] (on_lift (set_busy true) w1)).
  { rewrite (updateDirectionIfIdle_here w1 Hi Hin).
    unfold openDoors. simpl doors. simpl busy. rewrite Hd, Hb. reflexivity. }
  subst pressed final. rewrite Ep. cbn [fst snd]. rewrite Eu.
  set (w2 := sleep 1000 [FOpenDoors; FVoid] (on_lift (set_busy true) w1)).
  assert (T2 : timers w2 = [(now w + 1000, [FOpenDoors; FVoid])])
    by (unfold w2; simpl; now rewrite Ht).
  assert (J2 : jobs w2 = []) by exact Hj.
  destruct (settle_timer_then_job _ _ w2 T2 J2) as [-> Ef].
  rewrite Ef. unfold run_job. cbn [jobs]. cbn [resume then_ with_jobs].
  set (w3 := mkWorld _ _ _ _ _ _).
  unfold settle_promise.
  change (lift (openDoors_resumed (with_jobs [] w3)))
    with (lift (openDoors_resumed w3)).
  destruct (openDoors_resumed_lift w3) as (Hc & Ho & Hbz & Hp & Hk & Hidle & Hdir).
  split; [reflexivity|]. split; [exact Hd|]. split; [reflexivity|].
  split; [exact T2|]. split; [reflexivity|].
  split; [simpl; lia|]. split; [exact Ho|]. split; [exact Hc|]. split; [exact Hbz|].
  split.
  { destruct (hasPendingRequests (lift (openDoors_resumed w3))) eqn:E.
    - rewrite (Hdir eq_refl). exact Hi.
    - apply hasPending_false in E as [P C]. now apply Hidle. }
  split.
  { unfold pendingPanelRequests. rewrite sort_asc_In, Hp, delete_In.
    change (currentFloor (lift w3)) with here. tauto. }
  split; [|reflexivity].
  intros c Hc'. unfold pendingCalls in Hc'. rewrite Hk in Hc'.
  apply filter_In in Hc' as [_ Hn]. apply negb_true_iff, Z.eqb_neq in Hn. exact Hn.
Qed.

Lemma press_current_floor_witness :
  doors (lift (settle 2 (snd (pressButton 3 (boot car_1_5_3))))) = Open /\
  pendingPanelRequests (lift (settle 2 (snd (pressButton 3 (boot car_1_5_3))))) = [].
Proof.
  split; [|reflexivity].
  destruct (press_current_floor (boot car_1_5_3)) as (_ & _ & _ & _ & _ & _ & H & _).
  - repeat split.
  - reflexivity.
  - simpl; lia.
  - exact H.
Defined.

(* ------------------------------------------------------------------ *)
(** ** One floor at a time *)

Lemma tasks_sleep (ms : Z) (k t : Task) (w : World) :
  In t (tasks (sleep ms k w)) -> In t (tasks w) \/ t = k.
Proof.
  unfold tasks, sleep; simpl. rewrite map_app, !in_app_iff. simpl. intuition.
Qed.

Lemma tasks_settle_promise (c : Completion) (k t : Task) (w : World) :
  In t (tasks (settle_promise c k w)) -> In t (tasks w) \/ t = k.
Proof.
  unfold settle_promise, tasks.
  destruct k as [|[] k']; try destruct c; simpl; auto;
    rewrite map_app, !in_app_iff; simpl; intuition.
Qed.

Lemma quiet_not_move (k : Task) : quiet k -> not_move k.
Proof. intros H next k' ->. inversion H; subst. discriminate. Qed.

Lemma moves_ok_free (w : World) : no_moves w -> moves_ok w.
Proof. intros H next k Hin. destruct (H next k Hin). Qed.

Lemma no_moves_unbusy (w : World) :
  moves_ok w -> busy (lift w) = false -> no_moves w.
Proof. intros H Hb next k Hin. destruct (H next k Hin) as (B & _). congruence. Qed.

Lemma no_moves_idle (w : World) :
  moves_ok w -> direction (lift w) = Idle -> no_moves w.
Proof. intros H Hd next k Hin. destruct (H next k Hin) as (_ & D & _). congruence. Qed.

Lemma moves_ok_same (w w' : World) :
  moves_ok w ->
  (forall t, In t (tasks w') -> In t (tasks w)) ->
  busy (lift w') = busy (lift w) ->
  direction (lift w') = direction (lift w) ->
  currentFloor (lift w') = currentFloor (lift w) ->
  moves_ok w'.
Proof.
  intros H Hs Hb Hd Hc next k Hin. rewrite Hb, Hd, Hc. apply (H next k). now apply Hs.
Qed.

Lemma no_moves_sub (w w' : World) :
  no_moves w ->
  (forall t, In t (tasks w') -> In t (tasks w) \/ not_move t) ->
  no_moves w'.
Proof.
  intros H Hs next k Hin. destruct (Hs _ Hin) as [Ho | Hn].
  - exact (H next k Ho).
  - exact (Hn next k eq_refl).
Qed.

Lemma moves_ok_settle_promise (c : Completion) (k : Task) (w : World) :
  moves_ok w -> not_move k -> moves_ok (settle_promise c k w).
Proof.
  intros H Hk next k' Hin. rewrite lift_settle_promise.
  destruct (tasks_settle_promise _ _ _ _ Hin) as [Ho | E].
  - exact (H next k' Ho).
  - destruct (Hk next k' (eq_sym E)).
Qed.

Lemma moves_ok_then (k : Task) (r : Async * World) :
  moves_ok (snd r) -> not_move k -> moves_ok (then_ k r).
Proof.
  destruct r as [[c|] w]; simpl; intros H Hk; [|exact H].
  now apply moves_ok_settle_promise.
Qed.

Lemma no_moves_settle_promise (c : Completion) (k : Task) (w : World) :
  no_moves w -> not_move k -> no_moves (settle_promise c k w).
Proof.
  intros H Hk. apply (no_moves_sub w); [exact H|].
  intros t Hin. destruct (tasks_settle_promise _ _ _ _ Hin) as [Ho | ->]; auto.
Qed.

Lemma no_moves_openDoors (k : Task) (w : World) :
  no_moves w -> no_moves (snd (openDoors k w)).
Proof.
  intros H.
  destruct (openDoors_cases k w) as [(_ & ->) | [(_ & _ & ->) | (_ & _ & ->)]];
    try exact H.
  apply (no_moves_sub w); [exact H|].
  intros t Hin. apply tasks_sleep in Hin as [Ho | ->]; [left; exact Ho | right].
  intros next k' E. discriminate.
Qed.

Lemma moves_ok_openDoors (k : Task) (w : World) :
  moves_ok w -> moves_ok (snd (openDoors k w)).
Proof.
  intros H.
  destruct (openDoors_cases k w) as [(_ & E) | [(_ & _ & E) | (_ & Hb & E)]];
    try (rewrite E; exact H).
  apply moves_ok_free. apply no_moves_openDoors. now apply no_moves_unbusy.
Qed.

Lemma moves_ok_closeDoors (k : Task) (w : World) :
  moves_ok w -> moves_ok (snd (closeDoors k w)).
Proof.
  intros H. unfold closeDoors.
  destruct (doors (lift w)); [|exact H].
  destruct (busy (lift w)) eqn:Hb; [exact H|]. simpl.
  apply moves_ok_free. apply (no_moves_sub w); [now apply no_moves_unbusy|].
  intros t Hin. apply tasks_sleep in Hin as [Ho | ->]; [left; exact Ho | right].
  intros next k' E. discriminate.
Qed.

Lemma no_moves_updateDirectionIfIdle (w : World) :
  no_moves w -> no_moves (updateDirectionIfIdle w).
Proof.
  intros H.
  destruct (updateDirectionIfIdle_cases w)
    as [(_ & ->) | [(_ & _ & ->) | [(_ & _ & d & _ & ->) | (_ & _ & ->)]]];
    try exact H.
  unfold then_.
  pose proof (no_moves_openDoors [FVoid] w H) as Ho.
  destruct (openDoors [FVoid] w) as [[c|] w']; cbn [snd] in *; [|exact Ho].
  apply no_moves_settle_promise; [exact Ho|]. intros next k' E. discriminate.
Qed.

Lemma moves_ok_updateDirectionIfIdle (w : World) :
  moves_ok w -> moves_ok (updateDirectionIfIdle w).
Proof.
  intros H.
  destruct (updateDirectionIfIdle_cases w)
    as [(_ & E) | [(_ & _ & E) | [(Hi & _) | (Hi & _)]]];
    try (rewrite E; exact H);
    apply moves_ok_free, no_moves_updateDirectionIfIdle, no_moves_idle; assumption.
Qed.

(** A move goes to sleep for the next floor in the direction of travel. *)
Lemma moves_ok_moveOneFloor_next (k : Task) (w : World) :
  moves_ok w -> busy (lift w) = false -> direction (lift w) <> Idle ->
  moves_ok (snd (moveOneFloor_next k w)).
Proof.
  intros H Hb Hd. pose proof (no_moves_unbusy w H Hb) as Hn.
  unfold moveOneFloor_next. destruct (_ || _); simpl.
  - apply moves_ok_free. exact Hn.
  - intros next k' Hin. apply tasks_sleep in Hin as [Ho | E].
    + destruct (Hn next k' Ho).
    + inversion E; subst. simpl. auto.
Qed.

Lemma moves_ok_moveOneFloor (k : Task) (w : World) :
  moves_ok w -> moves_ok (snd (moveOneFloor k w)).
Proof.
  intros H. unfold moveOneFloor.
  destruct (doors (lift w)); [exact H|].
  destruct (busy (lift w)) eqn:Hb; [exact H|].
  destruct (Direction_eqb (direction (lift w)) Idle) eqn:Ed.
  - pose proof (moves_ok_updateDirectionIfIdle w H) as Hu.
    destruct (Direction_eqb (direction (lift (updateDirectionIfIdle w))) Idle)
      eqn:Eu; [exact Hu|].
    apply Direction_eqb_neq in Eu.
    destruct (updateDirectionIfIdle_moving w Eu) as [_ B].
    apply moves_ok_moveOneFloor_next; [exact Hu | congruence | exact Eu].
  - apply moves_ok_moveOneFloor_next; [exact H | exact Hb | now apply Direction_eqb_neq].
Qed.

Lemma moves_ok_stepLoop (i m : Z) (k : Task) (w : World) :
  moves_ok w -> moves_ok (snd (stepLoop i m k w)).
Proof.
  intros H. unfold stepLoop. destruct (i <? m); [|exact H].
  assert (Hs : not_move (FStep i m :: k)) by (intros next k' E; discriminate).
  destruct (doors (lift w)), (direction (lift w)); try exact H;
    simpl; (apply moves_ok_then; [apply moves_ok_moveOneFloor; exact H | exact Hs]).
Qed.

(** What the lock tells about the job that runs next. *)
Lemma Mutex_woken (w : World) (c : Completion) (f : Frame) (k : Task)
      (js : list (Completion * Task)) :
  Mutex w -> jobs w = (c, f :: k) :: js ->
  quiet k /\
  (is_sleeper f = true ->
   timers w = [] /\ filter head_sleeper (map snd js) = [] /\
   busy (lift w) = true /\ door_before f (doors (lift w))).
Proof.
  intros Hm Ej.
  assert (Sw : Shape w) by (destruct Hm; assumption).
  split.
  { destruct Sw as [_ Sj]. rewrite Ej in Sj. inversion Sj; subst. assumption. }
  intros Hf.
  assert (Fw : flight w = map snd (timers w) ++ (f :: k)
                           :: filter head_sleeper (map snd js)).
  { unfold flight. rewrite Ej. simpl. now rewrite Hf. }
  destruct Hm as [S B F | g k0 S B F D]; rewrite F in Fw.
  - destruct (map snd (timers w)); discriminate.
  - destruct (timers w) as [|a r]; simpl in Fw.
    + inversion Fw; subst. auto.
    + inversion Fw as [[A Bb]]. destruct (map snd r); discriminate.
Qed.

Lemma no_sleeper_no_moves (w : World) :
  timers w = [] -> filter head_sleeper (map snd (jobs w)) = [] -> no_moves w.
Proof.
  intros Ht Hf next k Hin. unfold tasks in Hin. rewrite Ht in Hin. simpl in Hin.
  assert (Hi : In (FMoveSleep next :: k) (filter head_sleeper (map snd (jobs w)))).
  { apply filter_In. split; [exact Hin | reflexivity]. }
  rewrite Hf in Hi. destruct Hi.
Qed.

Lemma moves_ok_run_job (w : World) : Mutex w -> moves_ok w -> moves_ok (run_job w).
Proof.
  intros Hm H. unfold run_job.
  destruct (jobs w) as [|[c t] js] eqn:Ej; [exact H|].
  assert (Sub : forall u, In u (tasks (with_jobs js w)) -> In u (tasks w)).
  { intros u. unfold tasks. rewrite Ej. simpl. rewrite !in_app_iff. simpl. tauto. }
  assert (H1 : moves_ok (with_jobs js w)).
  { apply (moves_ok_same w); auto. }
  destruct t as [|f k]; [exact H1|].
  destruct (Mutex_woken w c f k js Hm Ej) as [Hq Hs].
  pose proof (quiet_not_move k Hq) as Hk.
  destruct (is_sleeper f) eqn:Ef.
  - destruct (Hs eq_refl) as (Ht & Hf & _ & _).
    assert (N1 : no_moves (with_jobs js w))
      by (apply no_sleeper_no_moves; assumption).
    apply moves_ok_free.
    destruct f; simpl in Ef; try discriminate; cbn [resume then_].
    + apply no_moves_settle_promise; [exact N1 | exact Hk].
    + apply no_moves_settle_promise; [|exact Hk].
      unfold closeDoors_resumed.
      apply (no_moves_updateDirectionIfIdle (on_lift (set_doors Closed) (with_jobs js w))).
      exact N1.
    + unfold moveOneFloor_resumed.
      set (w1 := on_lift _ (with_jobs js w)).
      assert (N2 : no_moves w1) by exact N1.
      destruct (shouldStopAtFloor _ _); [|now apply no_moves_settle_promise].
      cbn [then_].
      pose proof (no_moves_openDoors (FMoveOpen :: k) w1 N2) as No.
      destruct (openDoors (FMoveOpen :: k) w1) as [[c'|] w']; cbn [snd] in *; [|exact No].
      apply no_moves_settle_promise; [exact No|]. intros n k' E. discriminate.
  - apply moves_ok_then; [|exact Hk].
    destruct f; simpl in Ef; try discriminate; cbn [resume snd]; try exact H1.
    destruct c; [now apply moves_ok_stepLoop | exact H1].
Qed.

Lemma pop_earliest_In (ts : list (Z * Task)) t rest :
  pop_earliest ts = Some (t, rest) ->
  In t ts /\ forall u, In u rest -> In u ts.
Proof.
  intros E.
  destruct (pop_earliest_Forall (fun u => In u ts) ts t rest E) as [A B].
  { apply Forall_forall. auto. }
  split; [exact A|]. now apply Forall_forall.
Qed.

Lemma moves_ok_step (w : World) (e : Event) :
  Mutex w -> moves_ok w -> moves_ok (step w e).
Proof.
  intros Hm H.
  assert (Hn : not_move []) by (intros next k' E; discriminate).
  destruct e; simpl.
  - unfold pressButton. destruct (assertFloorInRange f (lift w)); [|exact H]. simpl.
    apply moves_ok_updateDirectionIfIdle. apply (moves_ok_same w); auto.
  - unfold callFrom. destruct (assertFloorInRange f (lift w)); [|exact H]. simpl.
    apply moves_ok_updateDirectionIfIdle. apply (moves_ok_same w); auto.
  - apply moves_ok_then; [now apply moves_ok_openDoors | exact Hn].
  - apply moves_ok_then; [now apply moves_ok_closeDoors | exact Hn].
  - apply moves_ok_then; [now apply moves_ok_moveOneFloor | exact Hn].
  - apply moves_ok_then; [now apply moves_ok_stepLoop | exact Hn].
  - now apply moves_ok_run_job.
  - unfold fire_timer.
    destruct (pop_earliest (timers w)) as [[[due k] rest]|] eqn:E; [|exact H].
    destruct (pop_earliest_In _ _ _ E) as [A B].
    apply (moves_ok_same w); auto.
    intros u. unfold tasks. simpl. rewrite map_app, !in_app_iff. simpl.
    intros [Hu | [Hu | [<- | []]]]; auto.
    + left. apply in_map_iff in Hu as (x & <- & Hx). apply in_map. now apply B.
    + left. now apply (in_map snd) in A.
  - unfold idle_for. destruct (_ && _); [|exact H].
    apply (moves_ok_same w); auto.
Qed.

Lemma moves_ok_reachable (w : World) : reachable w -> moves_ok w.
Proof.
  intros (lo & hi & s & l & es & Hn & ->).
  assert (R : forall es', reachable (run es' (boot l))).
  { intros es'. now apply (run_reachable lo hi s). }
  induction es as [|e es IH] using rev_ind.
  - intros next k [].
  - unfold run in *. rewrite fold_left_app. simpl.
    apply moves_ok_step; [apply Mutex_reachable, R | exact IH].
Qed.

Lemma currentFloor_moveOneFloor (k : Task) (w : World) :
  currentFloor (lift (snd (moveOneFloor k w))) = currentFloor (lift w).
Proof.
  unfold moveOneFloor.
  destruct (doors (lift w)); [reflexivity|].
  destruct (busy (lift w)); [reflexivity|].
  assert (N : forall v, currentFloor (lift (snd (moveOneFloor_next k v)))
                        = currentFloor (lift v)).
  { intros v. unfold moveOneFloor_next. destruct (_ || _); reflexivity. }
  destruct (keeps_updateDirectionIfIdle w) as (_ & Hc & _).
  destruct (Direction_eqb (direction (lift w)) Idle); [|apply N].
  destruct (Direction_eqb _ Idle); [exact Hc | now rewrite N].
Qed.

Lemma currentFloor_then (k : Task) (r : Async * World) :
  currentFloor (lift (then_ k r)) = currentFloor (lift (snd r)).
Proof. destruct r as [[c|] w]; simpl; [now rewrite lift_settle_promise | auto]. Qed.

Lemma currentFloor_stepLoop (i m : Z) (k : Task) (w : World) :
  currentFloor (lift (snd (stepLoop i m k w))) = currentFloor (lift w).
Proof.
  unfold stepLoop. destruct (i <? m); [|reflexivity].
  destruct (doors (lift w)), (direction (lift w)); try reflexivity;
    simpl; now rewrite currentFloor_then, currentFloor_moveOneFloor.
Qed.

Lemma currentFloor_openDoors (k : Task) (w : World) :
  currentFloor (lift (snd (openDoors k w))) = currentFloor (lift w).
Proof.
  destruct (openDoors_cases k w) as [(_ & ->) | [(_ & _ & ->) | (_ & _ & ->)]];
    reflexivity.
Qed.



(* ------------------------------------------------------------------ *)
(** ** Riding to a request *)

Lemma settle_S_timer (n : nat) (w : World) t ts :
  jobs w = [] -> timers w = t :: ts -> settle (S n) w = settle n (fire_timer w).
Proof. intros Hj Ht. simpl. now rewrite Hj, Ht. Qed.

Lemma settle_S_job (n : nat) (w : World) j js :
  jobs w = j :: js -> settle (S n) w = settle n (run_job w).
Proof. intros Hj. simpl. now rewrite Hj. Qed.

Section Ride.
Local Arguments Z.add : simpl never.
Local Arguments Z.max : simpl never.
Local Arguments Z.ltb : simpl never.
Local Arguments Z.gtb : simpl never.
Local Arguments Z.eqb : simpl never.
Local Arguments Z.leb : simpl never.

Variables lo hi t m : Z.
Variable d : Direction.
Variables (dl : list Completion) (un : list Error).
Hypothesis Hd : d <> Idle.

Lemma ride_wake (cur i nw : Z) :
  fire_timer (riding lo hi d t cur i m nw dl un)
  = mkWorld (mkLift lo hi cur d Closed [t] [] true) (nw + 3000) []
            [(Normal, [FMoveSleep (cur + dir_value d); FStep i m])] dl un.
Proof.
  unfold riding, fire_timer. simpl. rewrite Z.max_r by lia. reflexivity.
Qed.

Lemma ride_pass (cur i nw : Z) :
  cur + dir_value d <> t ->
  run_job (mkWorld (mkLift lo hi cur d Closed [t] [] true) nw []
            [(Normal, [FMoveSleep (cur + dir_value d); FStep i m])] dl un)
  = mkWorld (mkLift lo hi (cur + dir_value d) d Closed [t] [] false) nw []
            [(Normal, [FStep i m])] dl un.
Proof.
  intros Hne. apply Z.eqb_neq in Hne.
  unfold run_job. simpl. unfold moveOneFloor_resumed, shouldStopAtFloor. simpl.
  rewrite Hne. simpl. reflexivity.
Qed.

Lemma ride_on (cur i nw : Z) :
  lo <= cur + dir_value d <= hi ->
  i + 1 < m ->
  run_job (mkWorld (mkLift lo hi cur d Closed [t] [] false) nw []
            [(Normal, [FStep i m])] dl un)
  = riding lo hi d t cur (i + 1) m nw dl un.
Proof.
  intros Hr Him.
  assert (E1 : (i + 1 <? m) = true) by (apply Z.ltb_lt; lia).
  assert (E2 : (cur + dir_value d <? lo) || (cur + dir_value d >? hi) = false).
  { apply orb_false_iff.
    split; [apply Z.ltb_ge | rewrite Z.gtb_ltb; apply Z.ltb_ge]; lia. }
  unfold run_job. simpl. unfold stepLoop. rewrite E1. simpl.
  unfold moveOneFloor. simpl.
  destruct d; try congruence; simpl; unfold moveOneFloor_next; simpl;
    simpl in E2; rewrite E2; reflexivity.
Qed.

Lemma ride_off (cur i nw : Z) :
  m <= i + 1 ->
  run_job (mkWorld (mkLift lo hi cur d Closed [t] [] false) nw []
            [(Normal, [FStep i m])] dl un)
  = ride_cut_short lo hi d t cur nw dl un.
Proof.
  intros Him.
  assert (E1 : (i + 1 <? m) = false) by (apply Z.ltb_ge; lia).
  unfold run_job. simpl. unfold stepLoop. rewrite E1. reflexivity.
Qed.

Lemma ride_stop (cur i nw : Z) :
  cur + dir_value d = t ->
  run_job (mkWorld (mkLift lo hi cur d Closed [t] [] true) nw []
            [(Normal, [FMoveSleep (cur + dir_value d); FStep i m])] dl un)
  = mkWorld (mkLift lo hi t d Closed [t] [] true) nw
            [(nw + 1000, [FOpenDoors; FMoveOpen; FStep i m])] [] dl un.
Proof.
  intros ->.
  unfold run_job. simpl. unfold moveOneFloor_resumed, shouldStopAtFloor. simpl.
  rewrite Z.eqb_refl. simpl. reflexivity.
Qed.

Lemma ride_ring (i nw : Z) :
  fire_timer (mkWorld (mkLift lo hi t d Closed [t] [] true) nw
                [(nw + 1000, [FOpenDoors; FMoveOpen; FStep i m])] [] dl un)
  = mkWorld (mkLift lo hi t d Closed [t] [] true) (nw + 1000) []
            [(Normal, [FOpenDoors; FMoveOpen; FStep i m])] dl un.
Proof.
  unfold fire_timer. simpl. rewrite Z.max_r by lia. reflexivity.
Qed.

Lemma ride_opened (i nw : Z) :
  run_job (mkWorld (mkLift lo hi t d Closed [t] [] true) nw []
            [(Normal, [FOpenDoors; FMoveOpen; FStep i m])] dl un)
  = mkWorld (mkLift lo hi t Idle Open [] [] false) nw []
            [(Normal, [FMoveOpen; FStep i m])] dl un.
Proof.
  unfold run_job. simpl. unfold openDoors_resumed, fulfillAtCurrentFloor. simpl.
  unfold JsSet.delete. simpl. rewrite Z.eqb_refl. simpl. reflexivity.
Qed.

Lemma ride_done (i nw : Z) :
  run_job (run_job (mkWorld (mkLift lo hi t Idle Open [] [] false) nw []
                      [(Normal, [FMoveOpen; FStep i m])] dl un))
  = ride_arrived lo hi t nw dl un.
Proof.
  unfold run_job at 2. simpl.
  unfold run_job. simpl. unfold stepLoop.
  destruct (i + 1 <? m); reflexivity.
Qed.

Lemma ride_open (i nw : Z) :
  settle 4 (mkWorld (mkLift lo hi t d Closed [t] [] true) nw
              [(nw + 1000, [FOpenDoors; FMoveOpen; FStep i m])] [] dl un)
  = ride_arrived lo hi t (nw + 1000) dl un.
Proof.
  erewrite settle_S_timer by reflexivity. rewrite ride_ring.
  erewrite settle_S_job by reflexivity. rewrite ride_opened.
  erewrite settle_S_job by reflexivity.
  erewrite settle_S_job.
  - simpl settle. apply ride_done.
  - unfold run_job. simpl. reflexivity.
Qed.

(** One floor passed: three turns of the loop. *)
Lemma ride_hop (cur i nw : Z) :
  cur + dir_value d <> t ->
  lo <= cur + dir_value d + dir_value d <= hi ->
  i + 1 < m ->
  settle 3 (riding lo hi d t cur i m nw dl un)
  = riding lo hi d t (cur + dir_value d) (i + 1) m (nw + 3000) dl un.
Proof.
  intros Hne Hr Him.
  erewrite settle_S_timer by reflexivity. rewrite ride_wake.
  erewrite settle_S_job by reflexivity. rewrite ride_pass by assumption.
  erewrite settle_S_job by reflexivity. rewrite ride_on by assumption.
  reflexivity.
Qed.

(** The last floor: six turns of the loop. *)
Lemma ride_last (cur i nw : Z) :
  cur + dir_value d = t ->
  settle 6 (riding lo hi d t cur i m nw dl un)
  = ride_arrived lo hi t (nw + 4000) dl un.
Proof.
  intros He.
  erewrite settle_S_timer by reflexivity. rewrite ride_wake.
  erewrite settle_S_job by reflexivity. rewrite ride_stop by assumption.
  rewrite ride_open. f_equal. lia.
Qed.

(** The bound reached one floor further on: three turns of the loop. *)
Lemma ride_quit (cur i nw : Z) :
  cur + dir_value d <> t ->
  m <= i + 1 ->
  settle 3 (riding lo hi d t cur i m nw dl un)
  = ride_cut_short lo hi d t (cur + dir_value d) (nw + 3000) dl un.
Proof.
  intros Hne Him.
  erewrite settle_S_timer by reflexivity. rewrite ride_wake.
  erewrite settle_S_job by reflexivity. rewrite ride_pass by assumption.
  erewrite settle_S_job by reflexivity. rewrite ride_off by assumption.
  reflexivity.
Qed.

Lemma ride_many (n : nat) : forall cur i nw,
  t = cur + Z.of_nat (S n) * dir_value d ->
  (forall j, 1 <= j <= Z.of_nat (S n) -> lo <= cur + j * dir_value d <= hi) ->
  i + Z.of_nat n < m ->
  settle (3 * n + 6) (riding lo hi d t cur i m nw dl un)
  = ride_arrived lo hi t (nw + 3000 * Z.of_nat (S n) + 1000) dl un.
Proof.
  induction n as [|n IH]; intros cur i nw Ht Hr Hm.
  - simpl Nat.add. rewrite ride_last by lia. f_equal. lia.
  - replace (3 * S n + 6)%nat with (3 + (3 * n + 6))%nat by lia.
    rewrite settle_add, ride_hop.
    + rewrite IH.
      * f_equal. lia.
      * lia.
      * intros j Hj. specialize (Hr (j + 1)).
        replace (cur + dir_value d + j * dir_value d)
          with (cur + (j + 1) * dir_value d) by lia.
        apply Hr. lia.
      * lia.
    + destruct d; try congruence; simpl dir_value in *; lia.
    + specialize (Hr 2). replace (cur + dir_value d + dir_value d)
        with (cur + 2 * dir_value d) by lia. apply Hr. lia.
    + lia.
Qed.

Lemma ride_few (q : nat) : forall cur i nw,
  m = i + Z.of_nat (S q) ->
  (forall j, 1 <= j <= Z.of_nat (S q) -> cur + j * dir_value d <> t) ->
  (forall j, 1 <= j <= Z.of_nat (S q) -> lo <= cur + j * dir_value d <= hi) ->
  settle (3 * S q) (riding lo hi d t cur i m nw dl un)
  = ride_cut_short lo hi d t (cur + Z.of_nat (S q) * dir_value d)
                   (nw + 3000 * Z.of_nat (S q)) dl un.
Proof.
  induction q as [|q IH]; intros cur i nw Hm Hne Hr.
  - change (3 * 1)%nat with 3%nat. rewrite ride_quit.
    + f_equal; lia.
    + specialize (Hne 1). replace (cur + dir_value d) with (cur + 1 * dir_value d) by lia.
      apply Hne. lia.
    + lia.
  - replace (3 * S (S q))%nat with (3 + 3 * S q)%nat by lia.
    rewrite settle_add, ride_hop.
    + rewrite IH.
      * f_equal; lia.
      * lia.
      * intros j Hj. specialize (Hne (j + 1)).
        replace (cur + dir_value d + j * dir_value d)
          with (cur + (j + 1) * dir_value d) by lia.
        apply Hne. lia.
      * intros j Hj. specialize (Hr (j + 1)).
        replace (cur + dir_value d + j * dir_value d)
          with (cur + (j + 1) * dir_value d) by lia.
        apply Hr. lia.
    + specialize (Hne 1). replace (cur + dir_value d) with (cur + 1 * dir_value d) by lia.
      apply Hne. lia.
    + specialize (Hr 2). replace (cur + dir_value d + dir_value d)
        with (cur + 2 * dir_value d) by lia. apply Hr. lia.
    + lia.
Qed.
End Ride.

Section RideStart.
Local Arguments Z.add : simpl never.
Local Arguments Z.sub : simpl never.
Local Arguments Z.abs : simpl never.
Local Arguments Z.ltb : simpl never.
Local Arguments Z.gtb : simpl never.
Local Arguments Z.eqb : simpl never.

Lemma nearest_target_single (cur t : Z) : nearest_target cur t [t] = t.
Proof.
  unfold nearest_target, nearer. simpl. now rewrite Z.ltb_irrefl.
Qed.

Lemma press_elsewhere (lo hi cur t nw : Z) dl un :
  lo <= t <= hi -> t <> cur ->
  pressButton t (mkWorld (mkLift lo hi cur Idle Closed [] [] false) nw [] [] dl un)
  = (Normal,
     mkWorld (mkLift lo hi cur (if cur <? t then Up else Down) Closed [t] [] false)
             nw [] [] dl un).
Proof.
  intros Ht Hne.
  assert (Ea : (t <? lo) || (t >? hi) = false).
  { apply orb_false_iff.
    split; [apply Z.ltb_ge | rewrite Z.gtb_ltb; apply Z.ltb_ge]; lia. }
  unfold pressButton, assertFloorInRange. simpl. rewrite Ea.
  unfold updateDirectionIfIdle. simpl.
  change (0 <? 1) with true. simpl.
  rewrite nearest_target_single. unfold newDir. rewrite Z.gtb_ltb.
  destruct (cur <? t) eqn:E1; [reflexivity|].
  apply Z.ltb_ge in E1.
  replace (t <? cur) with true by (symmetry; apply Z.ltb_lt; lia).
  reflexivity.
Qed.

(** The request is pressed and stepUntilStop called: the first move is
    asleep. *)
Lemma ride_start (lo hi cur t m nw : Z) dl un :
  lo <= cur <= hi -> lo <= t <= hi -> t <> cur -> 0 < m ->
  step (mkWorld (mkLift lo hi cur (if cur <? t then Up else Down) Closed [t] [] false)
                nw [] [] dl un)
       (EStepUntilStop m)
  = riding lo hi (if cur <? t then Up else Down) t cur 0 m nw dl un.
Proof.
  intros Hc Ht Hne Hm.
  assert (Em : (0 <? m) = true) by (apply Z.ltb_lt; lia).
  unfold step, stepUntilStop, stepLoop. rewrite Em.
  destruct (cur <? t) eqn:E1.
  - apply Z.ltb_lt in E1.
    assert (E2 : (cur + 1 <? lo) || (cur + 1 >? hi) = false).
    { apply orb_false_iff.
      split; [apply Z.ltb_ge | rewrite Z.gtb_ltb; apply Z.ltb_ge]; lia. }
    simpl. unfold moveOneFloor, moveOneFloor_next. simpl. rewrite E2. reflexivity.
  - apply Z.ltb_ge in E1.
    assert (E2 : (cur + -1 <? lo) || (cur + -1 >? hi) = false).
    { apply orb_false_iff.
      split; [apply Z.ltb_ge | rewrite Z.gtb_ltb; apply Z.ltb_ge]; lia. }
    simpl. unfold moveOneFloor, moveOneFloor_next. simpl. rewrite E2. reflexivity.
Qed.
End RideStart.

Lemma at_rest_world (w : World) :
  at_rest w -> direction (lift w) = Idle ->
  panelRequests (lift w) = [] -> calls (lift w) = [] ->
  w = mkWorld (mkLift (minFloor (lift w)) (maxFloor (lift w)) (currentFloor (lift w))
                      Idle Closed [] [] false)
              (now w) [] [] (delivered w) (unhandled w).
Proof.
  destruct w as [[lo hi cur dir drs pan cls bsy] nw ts js dl un].
  unfold at_rest; simpl.
  intros (-> & -> & -> & ->) -> -> ->. reflexivity.
Qed.





(* ------------------------------------------------------------------ *)
(** ** Calls at the terminal floors *)

Lemma reachable_step (w : World) (e : Event) : reachable w -> reachable (step w e).
Proof.
  intros (lo & hi & s & l & es & Hn & ->).
  exists lo, hi, s, l, (es ++ [e]). split; [exact Hn|].
  unfold run. now rewrite fold_left_app.
Qed.

Lemma reachable_settle (n : nat) (w : World) : reachable w -> reachable (settle n w).
Proof.
  revert w. induction n as [|n IH]; intros w Hr; simpl; [exact Hr|].
  destruct (jobs w), (timers w); try exact Hr.
  - apply IH. exact (reachable_step w ETimer Hr).
  - apply IH. exact (reachable_step w EJob Hr).
  - apply IH. exact (reachable_step w EJob Hr).
Qed.

Lemma Inv_reachable (w : World) :
  reachable w -> Inv (minFloor (lift w)) (maxFloor (lift w)) w.
Proof.
  intros (lo & hi & s & l & es & Hn & ->).
  pose proof (Inv_run lo hi es _ (Inv_boot lo hi s l Hn)) as H.
  destruct H as [A B C D E]. rewrite A, B. constructor; auto.
Qed.

(** A car arriving at a terminal floor is travelling towards the end of the
    range, so a terminal call there asks for the other direction. *)
Lemma terminal_call_no_stop (l : Lift) (cur next : Z) :
  panelRequests l = [] ->
  Forall (terminal_call l) (calls l) ->
  direction l <> Idle ->
  next = cur + dir_value (direction l) ->
  minFloor l <= cur <= maxFloor l ->
  minFloor l <= next <= maxFloor l ->
  shouldStopAtFloor l next = false.
Proof.
  intros Hp Hc Hd Hn Hr1 Hr2.
  destruct (shouldStopAtFloor l next) eqn:E; [|reflexivity].
  apply shouldStopAtFloor_spec in E.
  destruct E as [Hin | [_ [Hi | (c & Hin & Hf & Hdir)]]].
  - rewrite Hp in Hin. destruct Hin.
  - congruence.
  - rewrite Forall_forall in Hc.
    destruct (Hc c Hin) as [[F U] | [F U]]; rewrite U in Hdir; simpl in Hdir;
      rewrite <- Hdir in Hn; simpl in Hn; lia.
Qed.

Section Passing.
Variable cs : list Call.

Lemma passing_same (w w' : World) :
  passing cs w ->
  keeps (lift w) (lift w') ->
  direction (lift w') <> Idle ->
  doors (lift w') = doors (lift w) ->
  Forall (Forall (fun f => door_frame f = false)) (tasks w') ->
  passing cs w'.
Proof.
  intros [A B C D E F] (K1 & K2 & K3 & K4) Hd Hdo Ht.
  constructor; try assumption; try congruence.
  unfold terminal_call in *. now rewrite K1, K2.
Qed.

Lemma calm_settle_promise (c : Completion) (k : Task) (w : World) :
  Forall (Forall (fun f => door_frame f = false)) (tasks w) ->
  Forall (fun f => door_frame f = false) k ->
  Forall (Forall (fun f => door_frame f = false)) (tasks (settle_promise c k w)).
Proof.
  intros H Hk. apply Forall_forall. intros t Hin.
  apply tasks_settle_promise in Hin as [Ho | ->]; [|exact Hk].
  rewrite Forall_forall in H. now apply H.
Qed.

Lemma calm_sleep (ms : Z) (k : Task) (w : World) :
  Forall (Forall (fun f => door_frame f = false)) (tasks w) ->
  Forall (fun f => door_frame f = false) k ->
  Forall (Forall (fun f => door_frame f = false)) (tasks (sleep ms k w)).
Proof.
  intros H Hk. apply Forall_forall. intros t Hin.
  apply tasks_sleep in Hin as [Ho | ->]; [|exact Hk].
  rewrite Forall_forall in H. now apply H.
Qed.

Lemma passing_settle_promise (c : Completion) (k : Task) (w : World) :
  passing cs w -> Forall (fun f => door_frame f = false) k ->
  passing cs (settle_promise c k w).
Proof.
  intros H Hk. apply (passing_same w); try (rewrite lift_settle_promise);
    try apply H; try apply keeps_refl; try reflexivity.
  apply calm_settle_promise; [apply H | exact Hk].
Qed.

Lemma passing_then (k : Task) (r : Async * World) :
  passing cs (snd r) -> Forall (fun f => door_frame f = false) k ->
  passing cs (then_ k r).
Proof.
  destruct r as [[c|] w]; simpl; intros H Hk; [|exact H].
  now apply passing_settle_promise.
Qed.

Lemma passing_moveOneFloor (k : Task) (w : World) :
  passing cs w -> Forall (fun f => door_frame f = false) k ->
  passing cs (snd (moveOneFloor k w)).
Proof.
  intros H Hk. unfold moveOneFloor.
  rewrite (pass_doors _ _ H).
  destruct (busy (lift w)); [exact H|].
  pose proof (pass_dir _ _ H) as Hd.
  apply Direction_eqb_neq in Hd. rewrite Hd.
  unfold moveOneFloor_next. destruct (_ || _); simpl.
  - apply (passing_same w); try apply H; try reflexivity; [repeat split|].
    simpl. destruct (Direction_eqb (direction (lift w)) Up); discriminate.
  - apply (passing_same w); try apply H; try reflexivity; [repeat split|].
    apply (calm_sleep 3000 _ (on_lift (set_busy true) w));
      [apply H | constructor; [reflexivity | exact Hk]].
Qed.

Lemma passing_stepLoop (i m : Z) (k : Task) (w : World) :
  passing cs w -> Forall (fun f => door_frame f = false) k ->
  passing cs (snd (stepLoop i m k w)).
Proof.
  intros H Hk. unfold stepLoop. destruct (i <? m); [|exact H].
  assert (Hs : Forall (fun f => door_frame f = false) (FStep i m :: k))
    by (constructor; [reflexivity | exact Hk]).
  destruct (doors (lift w)), (direction (lift w)); try exact H;
    simpl; (apply passing_then; [now apply passing_moveOneFloor | exact Hs]).
Qed.

(** The loop left alone keeps such a car passing. *)
Lemma passing_run_job (w : World) : reachable w -> passing cs w -> passing cs (run_job w).
Proof.
  intros Hr H. unfold run_job.
  destruct (jobs w) as [|[c t] js] eqn:Ej; [exact H|].
  assert (Ht : Forall (fun f => door_frame f = false) t
               /\ Forall (Forall (fun f => door_frame f = false)) (tasks (with_jobs js w))).
  { pose proof (pass_tasks _ _ H) as T. unfold tasks in *. rewrite Ej in T.
    simpl in T. rewrite Forall_app in T. destruct T as [T1 T2].
    inversion T2; subst. split; [assumption|].
    apply Forall_app. split; assumption. }
  destruct Ht as [Ht T1].
  assert (H1 : passing cs (with_jobs js w)).
  { apply (passing_same w); try apply H; try reflexivity; [apply keeps_refl | exact T1]. }
  destruct t as [|f k]; [exact H1|].
  inversion Ht as [|? ? Hf Hk]; subst.
  apply passing_then; [|exact Hk].
  destruct f; simpl in Hf; try discriminate; cbn [resume snd]; try exact H1.
  - (* a move wakes up: it passes the floor *)
    destruct (moves_ok_reachable w Hr next k) as (_ & Hdir & Hnext).
    { unfold tasks. rewrite Ej. apply in_or_app. right. now left. }
    pose proof (Inv_reachable w Hr) as [_ _ Hcur _ Hjobs].
    assert (Hrange : minFloor (lift w) <= next <= maxFloor (lift w)).
    { rewrite Ej in Hjobs. inversion Hjobs as [|? ? Hk0 _]; subst.
      apply Hk0. now left. }
    assert (Es : shouldStopAtFloor (lift w) next = false).
    { apply (terminal_call_no_stop (lift w) (currentFloor (lift w)) next);
        try assumption.
      - apply H.
      - rewrite (pass_calls _ _ H). apply H. }
    destruct (arrival_doors_closed w c next k js Hr Ej) as (Hd & _).
    destruct (moveOneFloor_resumed_stop (with_jobs js w) next k Hd) as [_ Hno].
    rewrite (Hno Es). cbn [snd].
    apply (passing_same (with_jobs js w)); try apply H1; try reflexivity.
    repeat split.
  - destruct c; [now apply passing_stepLoop | exact H1].
Qed.

Lemma passing_fire_timer (w : World) : passing cs w -> passing cs (fire_timer w).
Proof.
  intros H. unfold fire_timer.
  destruct (pop_earliest (timers w)) as [[[due k] rest]|] eqn:E; [|exact H].
  destruct (pop_earliest_In _ _ _ E) as [A B].
  apply (passing_same w); try apply H; try reflexivity; [apply keeps_refl|].
  pose proof (pass_tasks _ _ H) as T. rewrite Forall_forall in T.
  apply Forall_forall. intros u. unfold tasks. simpl.
  rewrite map_app, !in_app_iff. simpl.
  intros [Hu | [Hu | [<- | []]]]; apply T; unfold tasks; rewrite in_app_iff.
  - left. apply in_map_iff in Hu as (x & <- & Hx). apply in_map. now apply B.
  - now right.
  - left. now apply (in_map snd) in A.
Qed.

Lemma passing_settle (n : nat) : forall w,
  reachable w -> passing cs w -> passing cs (settle n w).
Proof.
  induction n as [|n IH]; intros w Hr H; simpl; [exact H|].
  destruct (jobs w) eqn:Ej, (timers w) eqn:Et; try exact H.
  - apply IH; [exact (reachable_step w ETimer Hr) | now apply passing_fire_timer].
  - apply IH; [exact (reachable_step w EJob Hr) | now apply passing_run_job].
  - apply IH; [exact (reachable_step w EJob Hr) | now apply passing_run_job].
Qed.
End Passing.



(* ------------------------------------------------------------------ *)
(** ** Turning round at the end of the range *)

Section Turn.
Local Arguments Z.add : simpl never.
Local Arguments Z.ltb : simpl never.
Local Arguments Z.gtb : simpl never.

(** At the end of the range the first turn of stepUntilStop only reverses
    the direction; the second starts the move back. *)
Lemma turn_round (lo hi cur t m nw : Z) (d : Direction) dl un :
  d <> Idle ->
  (cur + dir_value d < lo \/ hi < cur + dir_value d) ->
  lo <= cur - dir_value d <= hi ->
  1 < m ->
  settle 1 (step (mkWorld (mkLift lo hi cur d Closed [t] [] false) nw [] [] dl un)
                 (EStepUntilStop m))
  = riding lo hi (if Direction_eqb d Up then Down else Up) t cur 1 m nw dl un.
Proof.
  intros Hd Hout Hin Hm.
  assert (Em0 : (0 <? m) = true) by (apply Z.ltb_lt; lia).
  assert (Em1 : (0 + 1 <? m) = true) by (apply Z.ltb_lt; lia).
  assert (E1 : (cur + dir_value d <? lo) || (cur + dir_value d >? hi) = true).
  { apply orb_true_iff. destruct Hout; [left; apply Z.ltb_lt | right; rewrite Z.gtb_ltb; apply Z.ltb_lt]; lia. }
  unfold step, stepUntilStop, stepLoop. rewrite Em0.
  destruct d; try congruence; simpl in *;
    unfold moveOneFloor, moveOneFloor_next; simpl; rewrite E1; simpl;
    unfold run_job; simpl; unfold stepLoop; rewrite Em1; simpl;
    unfold moveOneFloor, moveOneFloor_next; simpl.
  - replace ((cur + -1 <? lo) || (cur + -1 >? hi)) with false; [reflexivity|].
    symmetry. apply orb_false_iff.
    split; [apply Z.ltb_ge | rewrite Z.gtb_ltb; apply Z.ltb_ge]; lia.
  - replace ((cur + 1 <? lo) || (cur + 1 >? hi)) with false; [reflexivity|].
    symmetry. apply orb_false_iff.
    split; [apply Z.ltb_ge | rewrite Z.gtb_ltb; apply Z.ltb_ge]; lia.
Qed.
End Turn.


